(** * Parse-graph construction and path enumeration (graph.cpp)

    A shallow embedding of [createGraph], [ParsePath] and [findPathsImpl].
    Objects held through [std::shared_ptr] live in an explicit object store
    and are named by their address, so that pointer comparisons of the source
    ([branch->m_nextState == lastState], [elem.m_branch == branch]) are
    comparisons of addresses here. *)

From Stdlib Require Import String.
From stdpp Require Import base option list gmap strings.

Local Open Scope string_scope.
Local Open Scope list_scope.

(** ** Outcomes

    [createGraph] reports a failure on [std::cerr] and returns a null
    pointer; the three messages are the three build failures below.  The
    remaining faults are the ways a run can leave the defined behaviour of the
    program: a failed [assert], a pointer that names no object, and the
    recursion budget of the model being exhausted. *)
Inductive fault : Type :=
  | DuplicateState (name : string)
  | UnresolvedReference (name : string)
  | MissingEntryState
  | AssertionFailed
  | InvalidPointer
  | OutOfFuel.

Inductive result (A : Type) : Type :=
  | Ok (a : A)
  | Err (e : fault).
Arguments Ok {A} a.
Arguments Err {A} e.

Definition bind {A B : Type} (r : result A) (f : A -> result B) : result B :=
  match r with
  | Ok a => f a
  | Err e => Err e
  end.

Notation "'do' x <- r ; k" := (bind r (fun x => k))
  (at level 10, x name, r at level 100, k at level 200,
   format "'[v' 'do'  x  <-  r ; '/' k ']'").
Notation "'do' ' pat <- r ; k" := (bind r (fun x => match x with pat => k end))
  (at level 10, pat pattern, r at level 100, k at level 200,
   format "'[v' 'do'  ' pat  <-  r ; '/' k ']'").

(** ** Data model *)

Abbreviation StatePtr := nat (only parsing).
Abbreviation BranchPtr := nat (only parsing).

Record State : Type := mkState {
  m_name : string;
  m_branches : list BranchPtr
}.

Record Branch : Type := mkBranch {
  m_nextState : StatePtr
}.

(** The object store: every [State] and every [Branch] made by
    [std::make_shared], at the index that is its address. *)
Record Heap : Type := mkHeap {
  states : list State;
  branches : list Branch
}.

Definition emptyHeap : Heap := mkHeap [] [].

Definition derefState (h : Heap) (p : StatePtr) : result State :=
  match states h !! p with
  | Some st => Ok st
  | None => Err InvalidPointer
  end.

Definition derefBranch (h : Heap) (p : BranchPtr) : result Branch :=
  match branches h !! p with
  | Some br => Ok br
  | None => Err InvalidPointer
  end.

(** [std::make_shared<State>(name)] *)
Definition newState (name : string) (h : Heap) : StatePtr * Heap :=
  (length (states h), mkHeap (states h ++ [mkState name []]) (branches h)).

(** [std::make_shared<Branch>(target)] *)
Definition newBranch (target : StatePtr) (h : Heap) : BranchPtr * Heap :=
  (length (branches h), mkHeap (states h) (branches h ++ [mkBranch target])).

(** [state->m_branches.push_back(b)] *)
Definition pushBranch (state : StatePtr) (b : BranchPtr) (h : Heap) : Heap :=
  mkHeap
    (alter (fun st => mkState (m_name st) (m_branches st ++ [b])) state (states h))
    (branches h).

(** ** createGraph

    [StateToBranchedStates] is an [unordered_map]; the function only iterates
    over it, twice, so the model takes the sequence of entries in iteration
    order. *)
Definition StateToBranchedStates := list (string * list string).

(** First loop: one [State] per entry, [emplace]d under its name. *)
Fixpoint createStates (graph : StateToBranchedStates)
    (namesToStates : gmap string StatePtr) (h : Heap)
    : result (gmap string StatePtr * Heap) :=
  match graph with
  | [] => Ok (namesToStates, h)
  | (stateName, _) :: rest =>
      match namesToStates !! stateName with
      | Some _ => Err (DuplicateState stateName)
      | None =>
          let '(p, h') := newState stateName h in
          createStates rest (<[stateName := p]> namesToStates) h'
      end
  end.

(** Inner loop of the second pass: one [Branch] per successor name. *)
Fixpoint linkBranches (namesToStates : gmap string StatePtr) (state : StatePtr)
    (names : list string) (h : Heap) : result Heap :=
  match names with
  | [] => Ok h
  | branchedStateName :: rest =>
      match namesToStates !! branchedStateName with
      | None => Err (UnresolvedReference branchedStateName)
      | Some target =>
          let '(b, h') := newBranch target h in
          linkBranches namesToStates state rest (pushBranch state b h')
      end
  end.

(** Second loop. *)
Fixpoint linkStates (namesToStates : gmap string StatePtr)
    (graph : StateToBranchedStates) (h : Heap) : result Heap :=
  match graph with
  | [] => Ok h
  | (stateName, names) :: rest =>
      match namesToStates !! stateName with
      | None => Err AssertionFailed
      | Some state =>
          do h' <- linkBranches namesToStates state names h;
          linkStates namesToStates rest h'
      end
  end.

Definition createGraph (graph : StateToBranchedStates) : result (Heap * StatePtr) :=
  do '(namesToStates, h) <- createStates graph ∅ emptyHeap;
  do h' <- linkStates namesToStates graph h;
  match namesToStates !! "start" with
  | None => Err MissingEntryState
  | Some start => Ok (h', start)
  end.

(** ** ParsePath *)

Record Element : Type := mkElement {
  m_state : StatePtr;
  m_branch : option BranchPtr
}.

#[global] Instance Element_eq_dec : EqDecision Element.
Proof. solve_decision. Defined.

Definition ParsePath := list Element.

Definition pushState (state : StatePtr) (m_elements : ParsePath) : ParsePath :=
  m_elements ++ [mkElement state None].

Definition popState (m_elements : ParsePath) : result ParsePath :=
  match m_elements with
  | [] => Err AssertionFailed
  | _ => Ok (removelast m_elements)
  end.

(** [m_elements.back().m_branch = branch] *)
Definition setBackBranch (branch : BranchPtr) (m_elements : ParsePath) : ParsePath :=
  match last m_elements with
  | Some back => removelast m_elements ++ [mkElement (m_state back) (Some branch)]
  | None => m_elements
  end.

Definition followBranch (h : Heap) (branch : BranchPtr) (m_elements : ParsePath)
    : result (bool * ParsePath) :=
  match last m_elements with
  | None => Err AssertionFailed
  | Some back =>
      let lastState := m_state back in
      do br <- derefBranch h branch;
      if decide (m_nextState br = lastState) then Ok (false, m_elements)
      else if
        existsb
          (fun elem =>
             bool_decide (m_state elem = lastState)
             && bool_decide (m_branch elem = Some branch))
          m_elements
      then Ok (false, m_elements)
      else Ok (true, setBackBranch branch m_elements)
  end.

(** [operator<<] prints [m_name] of every element followed by ["; "]. *)
Fixpoint pathNames (h : Heap) (path : ParsePath) : result (list string) :=
  match path with
  | [] => Ok []
  | elem :: rest =>
      do st <- derefState h (m_state elem);
      do names <- pathNames h rest;
      Ok (m_name st :: names)
  end.

Definition printPath (h : Heap) (path : ParsePath) : result string :=
  do names <- pathNames h path;
  Ok (foldr (fun name out => name +:+ "; " +:+ out) "" names).

(** ** findPathsImpl *)

(** What the search reads and writes: the result vector, the path under
    construction, and the loop reports written to [std::cerr], each with the
    path it printed. *)
Record World : Type := mkWorld {
  paths : list ParsePath;
  currentPath : ParsePath;
  cerr : list ParsePath
}.

Definition setCurrentPath (p : ParsePath) (w : World) : World :=
  mkWorld (paths w) p (cerr w).

(** The loop over [state->m_branches]; [visit] is the recursive call. *)
Fixpoint forBranches (visit : StatePtr -> World -> result World) (h : Heap)
    (bs : list BranchPtr) (branchFollowed : bool) (w : World)
    : result (bool * World) :=
  match bs with
  | [] => Ok (branchFollowed, w)
  | branch :: rest =>
      do '(followed, p) <- followBranch h branch (currentPath w);
      let w1 := setCurrentPath p w in
      if followed then
        do br <- derefBranch h branch;
        do w2 <- visit (m_nextState br) w1;
        forBranches visit h rest true w2
      else forBranches visit h rest branchFollowed w1
  end.

Fixpoint findPathsImpl (fuel : nat) (h : Heap) (state : StatePtr) (w : World)
    : result World :=
  match fuel with
  | 0 => Err OutOfFuel
  | S fuel' =>
      let w := setCurrentPath (pushState state (currentPath w)) w in
      do st <- derefState h state;
      do w' <- match m_branches st with
           | [] => Ok (mkWorld (paths w ++ [currentPath w]) (currentPath w) (cerr w))
           | bs =>
               do '(branchFollowed, w1) <- forBranches (findPathsImpl fuel' h) h bs false w;
               if branchFollowed then Ok w1
               else Ok (mkWorld (paths w1) (currentPath w1) (cerr w1 ++ [currentPath w1]))
           end;
      do p <- popState (currentPath w');
      Ok (setCurrentPath p w')
  end.

Definition findPaths (fuel : nat) (h : Heap) (state : StatePtr) : result World :=
  findPathsImpl fuel h state (mkWorld [] [] []).

(** ** The graphs of the source file *)

Definition ParseGraph : StateToBranchedStates :=
  [ ("start", ["start_loop"; "s1"]);
    ("start_loop", ["loop_1"; "s1"]);
    ("loop_1", ["loop_2"]);
    ("loop_2", ["start_loop"; "accept"]);
    ("s1", ["accept"]);
    ("accept", []) ].

Definition DeadLoopGraph : StateToBranchedStates :=
  [ ("start", ["loop_a"]);
    ("loop_a", ["loop_b"]);
    ("loop_b", ["loop_a"]) ].


(** ** Notions the properties are stated with *)

(** A pointer of the store that is safe to follow: the branch exists and its
    target is a state of the store. *)
Definition validBranch (h : Heap) (b : BranchPtr) : Prop :=
  match branches h !! b with
  | Some br => m_nextState br < length (states h)
  | None => False
  end.

(** A state owns distinct branch objects, all of them valid. *)
Definition validState (h : Heap) (st : State) : Prop :=
  NoDup (m_branches st) /\ Forall (validBranch h) (m_branches st).

Definition validHeap (h : Heap) : Prop := Forall (validState h) (states h).

#[global] Instance validBranch_dec h b : Decision (validBranch h b).
Proof. unfold validBranch. destruct (branches h !! b); apply _. Defined.

#[global] Instance validState_dec h st : Decision (validState h st).
Proof. unfold validState. apply _. Defined.

#[global] Instance validHeap_dec h : Decision (validHeap h).
Proof. unfold validHeap. apply _. Defined.

(** The (state, branch) pairs of the graph, as path elements. *)
Definition statePairs (s : StatePtr) (st : State) : list Element :=
  map (fun b => mkElement s (Some b)) (m_branches st).

Definition allPairs (h : Heap) : list Element := concat (imap statePairs (states h)).

Definition branchCount (h : Heap) : nat := length (allPairs h).

(** [edge h s b t]: branch [b] of state [s] leads to state [t]. *)
Definition edge (h : Heap) (s : StatePtr) (b : BranchPtr) (t : StatePtr) : Prop :=
  exists st br,
    states h !! s = Some st /\ b ∈ m_branches st /\
    branches h !! b = Some br /\ m_nextState br = t.

(** Reachability along at least one branch. *)
Inductive reaches (h : Heap) : StatePtr -> StatePtr -> Prop :=
  | reaches_edge s b t : edge h s b t -> reaches h s t
  | reaches_step s b t u : edge h s b t -> reaches h t u -> reaches h s u.

Definition acyclic (h : Heap) : Prop := forall s, ~ reaches h s s.

(** A path of the graph from [s] to a state without branches: every element
    but the last carries a branch of its state that leads to the state of the
    next element; the last element carries no branch. *)
Inductive sinkPath (h : Heap) : StatePtr -> ParsePath -> Prop :=
  | sinkPath_sink s st :
      states h !! s = Some st -> m_branches st = [] ->
      sinkPath h s [mkElement s None]
  | sinkPath_step s b t r :
      edge h s b t -> sinkPath h t r ->
      sinkPath h s (mkElement s (Some b) :: r).

(** The descents the search makes below a path [p] whose elements are
    settled: a [sinkPath] in which every branch passed [followBranch]. *)
Inductive descent (h : Heap) : ParsePath -> StatePtr -> ParsePath -> Prop :=
  | descent_sink p s st :
      states h !! s = Some st -> m_branches st = [] ->
      descent h p s [mkElement s None]
  | descent_step p s b t r :
      edge h s b t -> t <> s -> mkElement s (Some b) ∉ p ->
      descent h (p ++ [mkElement s (Some b)]) t r ->
      descent h p s (mkElement s (Some b) :: r).

(** Well-formedness of a completed path (what a consumer of the result may
    rely on): consecutive elements are linked by the chosen branch, and the
    path ends in an element without branch at a state without branches. *)
Fixpoint linked (h : Heap) (path : ParsePath) : Prop :=
  match path with
  | [] => False
  | [last] =>
      m_branch last = None /\
      exists st, states h !! m_state last = Some st /\ m_branches st = []
  | elem :: (next :: _) as rest =>
      (exists b, m_branch elem = Some b /\ edge h (m_state elem) b (m_state next)) /\
      linked h rest
  end.

(** The pairs of the graph that a path has not used yet; their number bounds
    how much deeper a descent from that path can go. *)
Definition unused (h : Heap) (p : ParsePath) : nat :=
  length (filter (fun e => e ∉ p) (allPairs h)).

(** [enumerates h p s new]: the list [new] holds, each once, exactly the
    paths [p ++ r] where [r] is a descent from [s] below [p]. *)
Definition enumerates (h : Heap) (p : ParsePath) (s : StatePtr)
    (new : list ParsePath) : Prop :=
  NoDup new /\
  forall q, q ∈ new <-> exists r, q = p ++ r /\ descent h p s r.

(** ** The program

    [main] with the graph as a parameter: build, enumerate, and give the
    state names of every completed path (what goes to [std::cout]) and of
    every loop report (what goes to [std::cerr]). *)
Fixpoint allNames (h : Heap) (ps : list ParsePath) : result (list (list string)) :=
  match ps with
  | [] => Ok []
  | path :: rest =>
      do names <- pathNames h path;
      do others <- allNames h rest;
      Ok (names :: others)
  end.

Definition run (fuel : nat) (graph : StateToBranchedStates)
    : result (list (list string) * list (list string)) :=
  do '(h, start) <- createGraph graph;
  do w <- findPaths fuel h start;
  do found <- allNames h (paths w);
  do reported <- allNames h (cerr w);
  Ok (found, reported).

#[global] Instance fault_eq_dec : EqDecision fault.
Proof. solve_decision. Defined.

#[global] Instance result_eq_dec {A} `{EqDecision A} : EqDecision (result A).
Proof. solve_decision. Defined.

(** [descending rank h]: every branch leads to a state of smaller rank, a
    topological numbering of the graph. *)
Definition descends (rank : StatePtr -> nat) (h : Heap) (s : StatePtr)
    (b : BranchPtr) : Prop :=
  match branches h !! b with
  | Some br => rank (m_nextState br) < rank s
  | None => True
  end.

#[global] Instance descends_dec rank h s b : Decision (descends rank h s b).
Proof. unfold descends. destruct (branches h !! b); apply _. Defined.

Definition descending (rank : StatePtr -> nat) (h : Heap) : Prop :=
  Forall (fun sst : StatePtr * State => Forall (descends rank h sst.1) (m_branches sst.2))
    (imap pair (states h)).

#[global] Instance descending_dec rank h : Decision (descending rank h).
Proof. unfold descending. apply _. Defined.

(** A graph with two branches between the same two states, and a diamond. *)
Definition TwinGraph : StateToBranchedStates :=
  [ ("start", ["accept"; "accept"]);
    ("accept", []) ].

Definition DiamondGraph : StateToBranchedStates :=
  [ ("start", ["left"; "right"]);
    ("left", ["accept"]);
    ("right", ["accept"]);
    ("accept", []) ].

(** The store and entry state of a graph that builds. *)
Definition built (graph : StateToBranchedStates) : Heap * StatePtr :=
  match createGraph graph with
  | Ok hs => hs
  | Err _ => (emptyHeap, 0)
  end.

(** ** Reading a built graph back

    The adjacency a store holds: for every [State], in address order, its
    name and the names of the states its branches lead to, in branch order. *)
Fixpoint mapResult {A B : Type} (f : A -> result B) (l : list A) : result (list B) :=
  match l with
  | [] => Ok []
  | a :: rest =>
      do b <- f a;
      do bs <- mapResult f rest;
      Ok (b :: bs)
  end.

Definition targetName (h : Heap) (b : BranchPtr) : result string :=
  do br <- derefBranch h b;
  do st <- derefState h (m_nextState br);
  Ok (m_name st).

Definition readState (h : Heap) (st : State) : result (string * list string) :=
  do names <- mapResult (targetName h) (m_branches st);
  Ok (m_name st, names).

Definition readBack (h : Heap) : result StateToBranchedStates :=
  mapResult (readState h) (states h).

(** Every [Branch] object is in the branch list of one state only. *)
Definition singleOwner (h : Heap) : Prop :=
  forall s1 s2 st1 st2 b,
    states h !! s1 = Some st1 -> states h !! s2 = Some st2 ->
    b ∈ m_branches st1 -> b ∈ m_branches st2 -> s1 = s2.

(** Branch [b] leads to the state the map has for the name [n]. *)
Definition resolvesTo (m : gmap string nat) (h : Heap) (b : BranchPtr)
    (n : string) : Prop :=
  exists br, branches h !! b = Some br /\ m !! n = Some (m_nextState br).

(** ** Dead ends

    The descents that end in a loop report: every branch on the way passed
    [followBranch], and at the last state, which has branches, every branch
    is refused: it leads back to that state, or the path already holds it. *)
Inductive deadEnd (h : Heap) : ParsePath -> StatePtr -> ParsePath -> Prop :=
  | deadEnd_stuck p s st :
      states h !! s = Some st -> m_branches st <> [] ->
      (forall b t, edge h s b t -> t = s \/ mkElement s (Some b) ∈ p) ->
      deadEnd h p s [mkElement s None]
  | deadEnd_step p s b t r :
      edge h s b t -> t <> s -> mkElement s (Some b) ∉ p ->
      deadEnd h (p ++ [mkElement s (Some b)]) t r ->
      deadEnd h p s (mkElement s (Some b) :: r).

(** [reports h p s newd]: the list [newd] holds, each once, exactly the
    paths [p ++ r] where [r] is a dead end from [s] below [p]. *)
Definition reports (h : Heap) (p : ParsePath) (s : StatePtr)
    (newd : list ParsePath) : Prop :=
  NoDup newd /\
  forall d, d ∈ newd <-> exists r, d = p ++ r /\ deadEnd h p s r.

(** The world [w] with [ps] and [ds] already in the result vector and on
    [std::cerr] before what [w] holds. *)
Definition extend (ps ds : list ParsePath) (w : World) : World :=
  mkWorld (ps ++ paths w) (currentPath w) (ds ++ cerr w).

(** ** Order of the result

    [earlier h q1 q2]: the two paths agree up to a state where [q1] takes a
    branch that comes before the branch [q2] takes, in that state's branch
    list. *)
Definition earlier (h : Heap) (q1 q2 : ParsePath) : Prop :=
  exists pre s st b1 b2 r1 r2 i1 i2,
    q1 = pre ++ mkElement s (Some b1) :: r1 /\
    q2 = pre ++ mkElement s (Some b2) :: r2 /\
    states h !! s = Some st /\
    m_branches st !! i1 = Some b1 /\ m_branches st !! i2 = Some b2 /\ i1 < i2.

Definition inBranchOrder (h : Heap) (l : list ParsePath) : Prop :=
  forall i j q1 q2,
    i < j -> l !! i = Some q1 -> l !! j = Some q2 -> earlier h q1 q2.

(** * Properties *)

Lemma bind_Ok {A B} (r : result A) (f : A -> result B) b :
  bind r f = Ok b <-> exists a, r = Ok a /\ f a = Ok b.
Proof.
  destruct r as [a|e]; simpl; split.
  - eauto.
  - intros (a' & [= <-] & ?); done.
  - done.
  - intros (a' & [=] & ?).
Qed.

Ltac inv_bind H :=
  repeat match type of H with
  | bind _ _ = Ok _ =>
      let a := fresh "a" in
      let Ha := fresh "Ha" in
      apply bind_Ok in H as (a & Ha & H)
  end.

(** *** ParsePath *)

Lemma removelast_snoc {A} (l : list A) x : removelast (l ++ [x]) = l.
Proof. apply removelast_last. Qed.

Lemma popState_pushState s p : popState (pushState s p) = Ok p.
Proof.
  unfold popState, pushState. rewrite removelast_snoc.
  destruct p; reflexivity.
Qed.

Lemma popState_snoc p e : popState (p ++ [e]) = Ok p.
Proof. unfold popState. rewrite removelast_snoc. destruct p; reflexivity. Qed.

Lemma setBackBranch_snoc b p s x :
  setBackBranch b (p ++ [mkElement s x]) = p ++ [mkElement s (Some b)].
Proof. unfold setBackBranch. rewrite last_snoc, removelast_snoc. done. Qed.

Lemma taken_elem_of s b (q : ParsePath) :
  existsb
    (fun elem => bool_decide (m_state elem = s) && bool_decide (m_branch elem = Some b)) q
  = bool_decide (mkElement s (Some b) ∈ q).
Proof.
  induction q as [|[s' x'] q IH]; simpl.
  - done.
  - rewrite IH. clear IH.
    destruct (decide (mkElement s (Some b) = mkElement s' x')) as [[= <- <-]|Hne].
    + rewrite !bool_decide_eq_true_2 by done. simpl.
      symmetry. apply bool_decide_eq_true. left.
    + destruct (decide (mkElement s (Some b) ∈ q)) as [Hin|Hnin].
      * rewrite (bool_decide_eq_true_2 _ Hin), orb_true_r.
        symmetry. apply bool_decide_eq_true. by right.
      * rewrite (bool_decide_eq_false_2 _ Hnin), orb_false_r.
        assert (mkElement s (Some b) ∉ mkElement s' x' :: q) as Hn
          by (rewrite not_elem_of_cons; done).
        rewrite (bool_decide_eq_false_2 _ Hn).
        apply andb_false_iff.
        destruct (decide (s' = s)) as [->|]; [right|left];
          apply bool_decide_eq_false; congruence.
Qed.

(** [followBranch] at a path whose last element is at [s]: the branch is
    taken exactly when it does not lead back to [s] and the pair
    ([s], [b]) is not yet in the path. *)
Lemma followBranch_snoc h b br p s x :
  branches h !! b = Some br ->
  followBranch h b (p ++ [mkElement s x]) =
    if decide (m_nextState br <> s /\ mkElement s (Some b) ∉ p ++ [mkElement s x])
    then Ok (true, p ++ [mkElement s (Some b)])
    else Ok (false, p ++ [mkElement s x]).
Proof.
  intros Hb. unfold followBranch, derefBranch.
  rewrite last_snoc, Hb. simpl.
  rewrite taken_elem_of, setBackBranch_snoc.
  destruct (decide (m_nextState br = s)) as [Heq|Hne].
  - rewrite decide_False by tauto. done.
  - case_bool_decide.
    + rewrite decide_False by tauto. done.
    + rewrite decide_True by tauto. done.
Qed.

Lemma followBranch_inv h b p s x followed p' :
  followBranch h b (p ++ [mkElement s x]) = Ok (followed, p') ->
  exists br, branches h !! b = Some br /\
    ((followed = true /\ p' = p ++ [mkElement s (Some b)] /\
      m_nextState br <> s /\ mkElement s (Some b) ∉ p ++ [mkElement s x])
     \/ (followed = false /\ p' = p ++ [mkElement s x] /\
         ~ (m_nextState br <> s /\ mkElement s (Some b) ∉ p ++ [mkElement s x]))).
Proof.
  destruct (branches h !! b) as [br|] eqn:Hb.
  - rewrite (followBranch_snoc _ _ _ _ _ _ Hb). intros Hrun.
    exists br. split; [done|].
    case_decide; injection Hrun as <- <-; [left|right]; done.
  - unfold followBranch, derefBranch. rewrite last_snoc, Hb. done.
Qed.

(** *** The search restores the path it is given *)

Section Frame.
Variable h : Heap.

Lemma forBranches_frame (visit : StatePtr -> World -> result World) :
  (forall t w1 w2, visit t w1 = Ok w2 -> currentPath w2 = currentPath w1) ->
  forall bs followed w followed' w' p s x,
    currentPath w = p ++ [mkElement s x] ->
    forBranches visit h bs followed w = Ok (followed', w') ->
    exists x', currentPath w' = p ++ [mkElement s x'].
Proof.
  intros Hvisit. induction bs as [|b bs IH]; intros f w f' w' p s x Hcur Hrun.
  - injection Hrun as <- <-. eauto.
  - simpl in Hrun. apply bind_Ok in Hrun as ([taken p1] & Hfb & Hrun).
    rewrite Hcur in Hfb.
    apply followBranch_inv in Hfb as (br & Hbr & [(-> & -> & _)|(-> & -> & _)]).
    + inv_bind Hrun. apply Hvisit in Ha0.
      eapply IH; [|exact Hrun]. rewrite Ha0. reflexivity.
    + eapply IH; [|exact Hrun]. reflexivity.
Qed.

Lemma findPathsImpl_frame fuel :
  forall state w w',
    findPathsImpl fuel h state w = Ok w' -> currentPath w' = currentPath w.
Proof.
  induction fuel as [|fuel IH]; intros state w w' Hrun; [done|].
  cbn [findPathsImpl] in Hrun. inv_bind Hrun. injection Hrun as <-. simpl.
  destruct (m_branches a) as [|b bs].
  - injection Ha0 as <-. simpl in Ha1. unfold pushState in Ha1.
    rewrite popState_snoc in Ha1. congruence.
  - apply bind_Ok in Ha0 as ([followed w1] & Hloop & Hrep).
    eapply forBranches_frame in Hloop as (x' & Hcur); [|exact IH|reflexivity].
    assert (currentPath a0 = currentPath w1) as Heq
      by (destruct followed; injection Hrep as <-; done).
    rewrite Heq, Hcur, popState_snoc in Ha1. congruence.
Qed.
End Frame.

(** *** More fuel does not change a result *)

Section Monotone.
Variable h : Heap.

Lemma forBranches_mono (visit1 visit2 : StatePtr -> World -> result World) :
  (forall t w1 w2, visit1 t w1 = Ok w2 -> visit2 t w1 = Ok w2) ->
  forall bs followed w r,
    forBranches visit1 h bs followed w = Ok r ->
    forBranches visit2 h bs followed w = Ok r.
Proof.
  intros Hvisit. induction bs as [|b bs IH]; intros f w r Hrun; [done|].
  simpl in *. apply bind_Ok in Hrun as ([taken p1] & Hfb & Hrun).
  rewrite Hfb. simpl. destruct taken; [|by apply IH].
  inv_bind Hrun. rewrite Ha. simpl. rewrite (Hvisit _ _ _ Ha0). simpl.
  by apply IH.
Qed.

Lemma findPathsImpl_mono fuel :
  forall fuel' state w w',
    fuel <= fuel' ->
    findPathsImpl fuel h state w = Ok w' ->
    findPathsImpl fuel' h state w = Ok w'.
Proof.
  induction fuel as [|fuel IH]; intros fuel' state w w' Hle Hrun; [done|].
  destruct fuel' as [|fuel']; [lia|].
  cbn [findPathsImpl] in *. inv_bind Hrun. rewrite Ha. cbn [bind].
  destruct (m_branches a) as [|b bs].
  - rewrite Ha0. simpl. rewrite Ha1. done.
  - apply bind_Ok in Ha0 as ([followed w1] & Hloop & Hrep).
    rewrite (forBranches_mono _ (findPathsImpl fuel' h) (fun t w1 w2 => IH fuel' t w1 w2 ltac:(lia)) _ _ _ _ Hloop).
    simpl. rewrite Hrep. simpl. rewrite Ha1. done.
Qed.
End Monotone.

(** *** Termination *)

Lemma filter_fresh_snoc (l p : list Element) e :
  length (filter (fun x => x ∉ p ++ [e]) l) <= length (filter (fun x => x ∉ p) l) /\
  (e ∈ l -> e ∉ p ->
   length (filter (fun x => x ∉ p ++ [e]) l) < length (filter (fun x => x ∉ p) l)).
Proof.
  induction l as [|y l [IHle IHlt]].
  - split; [done|]. intros Hin. by apply not_elem_of_nil in Hin.
  - rewrite !filter_cons.
    destruct (decide (y ∉ p ++ [e])) as [Hy|Hy].
    + rewrite decide_True by (intros Hin; apply Hy; apply elem_of_app; by left).
      simpl. split; [lia|].
      intros Hin Hp. apply elem_of_cons in Hin as [->|Hin].
      * exfalso. apply Hy. apply elem_of_app. right. by apply list_elem_of_singleton.
      * specialize (IHlt Hin Hp). lia.
    + destruct (decide (y ∉ p)) as [Hyp|Hyp]; simpl.
      * split; [lia|]. intros _ _. lia.
      * split; [lia|]. intros Hin Hp. apply elem_of_cons in Hin as [->|Hin]; [done|].
        by apply IHlt.
Qed.

Lemma unused_snoc h p e :
  e ∈ allPairs h -> e ∉ p -> unused h (p ++ [e]) < unused h p.
Proof. intros Hin Hp. by apply filter_fresh_snoc. Qed.

Lemma unused_le h p : unused h p <= branchCount h.
Proof. apply length_filter. Qed.

Lemma unused_nil h : unused h [] = branchCount h.
Proof.
  unfold unused, branchCount. f_equal.
  induction (allPairs h) as [|y l IH]; [done|].
  rewrite filter_cons, decide_True by apply not_elem_of_nil. by f_equal.
Qed.

Lemma elem_of_allPairs h s st b :
  states h !! s = Some st -> b ∈ m_branches st -> mkElement s (Some b) ∈ allPairs h.
Proof.
  intros Hs Hb. unfold allPairs. apply list_elem_of_In, in_concat.
  exists (statePairs s st). split.
  - apply list_elem_of_In, elem_of_lookup_imap. eauto.
  - unfold statePairs. apply (in_map (fun b => mkElement s (Some b))), list_elem_of_In, Hb.
Qed.

Lemma validHeap_lookup h s st :
  validHeap h -> states h !! s = Some st -> validState h st.
Proof. intros Hv Hs. eapply Forall_lookup_1; eauto. Qed.

Lemma validBranch_inv h b :
  validBranch h b ->
  exists br, branches h !! b = Some br /\ m_nextState br < length (states h).
Proof. unfold validBranch. destruct (branches h !! b); [eauto|done]. Qed.

Section Termination.
Variable h : Heap.
Hypothesis Hvalid : validHeap h.

Lemma forBranches_total (visit : StatePtr -> World -> result World) n p s :
  (forall t w1, t < length (states h) -> unused h (currentPath w1) < n ->
     exists w2, visit t w1 = Ok w2 /\ currentPath w2 = currentPath w1) ->
  unused h p <= n ->
  forall bs, Forall (validBranch h) bs ->
    (forall b, b ∈ bs -> mkElement s (Some b) ∈ allPairs h) ->
    forall followed w x, currentPath w = p ++ [mkElement s x] ->
      exists followed' w' x', forBranches visit h bs followed w = Ok (followed', w') /\
        currentPath w' = p ++ [mkElement s x'].
Proof.
  intros Hvisit Hn. induction bs as [|b bs IH]; intros Hbs Hpairs f w x Hcur.
  - exists f, w, x. done.
  - apply Forall_cons in Hbs as [Hb Hbs].
    apply validBranch_inv in Hb as (br & Hbr & Ht).
    assert (forall b0, b0 ∈ bs -> mkElement s (Some b0) ∈ allPairs h) as Hpairs'
      by (intros b0 Hb0; apply Hpairs; by right).
    cbn [forBranches]. rewrite Hcur, (followBranch_snoc _ _ _ _ _ _ Hbr).
    case_decide as Hacc; cbn [bind].
    + destruct Hacc as [_ Hfresh].
      unfold derefBranch. rewrite Hbr. cbn [bind].
      destruct (Hvisit (m_nextState br)
                  (setCurrentPath (p ++ [mkElement s (Some b)]) w) Ht)
        as (w2 & Hw2 & Hcur2).
      { simpl. eapply Nat.lt_le_trans; [apply unused_snoc|exact Hn].
        - apply Hpairs. left.
        - intros Hin. apply Hfresh. apply elem_of_app. by left. }
      rewrite Hw2. cbn [bind]. apply (IH Hbs Hpairs' true w2 (Some b)).
      rewrite Hcur2. done.
    + apply (IH Hbs Hpairs' f _ x). done.
Qed.

Lemma findPathsImpl_total fuel :
  forall state w,
    state < length (states h) -> unused h (currentPath w) < fuel ->
    exists w', findPathsImpl fuel h state w = Ok w' /\ currentPath w' = currentPath w.
Proof.
  induction fuel as [|fuel IH]; intros state w Hstate Hfuel; [lia|].
  destruct (lookup_lt_is_Some_2 _ _ Hstate) as [st Hst].
  cbn [findPathsImpl]. unfold derefState. rewrite Hst. cbn [bind].
  destruct (m_branches st) as [|b bs] eqn:Hbs.
  - cbn [bind currentPath setCurrentPath]. unfold pushState.
    rewrite popState_snoc. cbn [bind]. eauto.
  - rewrite <- Hbs.
    destruct (validHeap_lookup _ _ _ Hvalid Hst) as [_ Hall].
    destruct (forBranches_total (findPathsImpl fuel h) fuel (currentPath w) state IH
                ltac:(lia) (m_branches st) Hall
                (fun b0 Hb0 => elem_of_allPairs _ _ _ _ Hst Hb0)
                false (setCurrentPath (pushState state (currentPath w)) w) None eq_refl)
      as (f' & w' & x' & Hloop & Hcur).
    rewrite Hloop. cbn [bind].
    destruct f'; cbn [bind currentPath setCurrentPath];
      rewrite Hcur, popState_snoc; cbn [bind]; eauto.
Qed.
End Termination.

(** *** What the search appends to the result *)

Lemma edge_target h s b t br :
  edge h s b t -> branches h !! b = Some br -> t = m_nextState br.
Proof. intros (st' & br' & _ & _ & Hbr & <-) Hbr'. congruence. Qed.

Section Descents.
Variable h : Heap.
Hypothesis Hvalid : validHeap h.

Lemma forBranches_descents (visit : StatePtr -> World -> result World) p s st :
  (forall t w1 w2, visit t w1 = Ok w2 ->
     currentPath w2 = currentPath w1 /\
     exists new, paths w2 = paths w1 ++ new /\ enumerates h (currentPath w1) t new) ->
  states h !! s = Some st ->
  forall bs followed w followed' w' x,
    NoDup bs -> (forall b, b ∈ bs -> b ∈ m_branches st) ->
    (forall b, b ∈ bs -> x <> Some b) ->
    currentPath w = p ++ [mkElement s x] ->
    forBranches visit h bs followed w = Ok (followed', w') ->
    exists new, paths w' = paths w ++ new /\ NoDup new /\
      forall q, q ∈ new <->
        exists b t r, b ∈ bs /\ q = p ++ (mkElement s (Some b) :: r) /\
          edge h s b t /\ t <> s /\ (mkElement s (Some b) ∉ p) /\
          descent h (p ++ [mkElement s (Some b)]) t r.
Proof.
  intros Hvisit Hst.
  induction bs as [|b bs IH]; intros f w f' w' x Hnd Hown Hx Hcur Hrun.
  - injection Hrun as <- <-. exists []. rewrite app_nil_r.
    split; [done|]. split; [constructor|].
    intros q. split.
    + intros Hq. by apply not_elem_of_nil in Hq.
    + intros (b & _ & _ & Hb & _). by apply not_elem_of_nil in Hb.
  - apply NoDup_cons in Hnd as [Hb Hnd].
    assert (forall b0, b0 ∈ bs -> b0 ∈ m_branches st) as Hown'
      by (intros b0 Hb0; apply Hown; by right).
    cbn [forBranches] in Hrun.
    apply bind_Ok in Hrun as ([taken p1] & Hfb & Hrun).
    rewrite Hcur in Hfb.
    apply followBranch_inv in Hfb as (br & Hbr & [(-> & -> & Hne & Hfresh)|(-> & -> & Hrej)]).
    + inv_bind Hrun. unfold derefBranch in Ha. rewrite Hbr in Ha.
      injection Ha as <-.
      apply Hvisit in Ha0 as (Hcur2 & new1 & Hp1 & Hnd1 & Hnew1).
      cbn [currentPath paths setCurrentPath] in *.
      destruct (IH true a0 f' w' (Some b) Hnd Hown') as (new2 & Hp2 & Hnd2 & Hnew2);
        [intros b0 Hb0 [= ->]; done | done | done |].
      exists (new1 ++ new2). split; [by rewrite Hp2, Hp1, app_assoc|].
      assert (mkElement s (Some b) ∉ p) as Hfresh'
        by (intros Hin; apply Hfresh, elem_of_app; by left).
      split.
      * apply NoDup_app. split; [done|]. split; [|done].
        intros q Hq1 Hq2.
        apply Hnew1 in Hq1 as (r1 & -> & _).
        apply Hnew2 in Hq2 as (b2 & t2 & r2 & Hb2 & Heq & _).
        rewrite <- app_assoc in Heq. apply app_inv_head in Heq.
        injection Heq as -> _. done.
      * intros q. rewrite elem_of_app, Hnew1, Hnew2. split.
        -- intros [(r & -> & Hd)|(b2 & t2 & r2 & Hb2 & Hrest)].
           ++ exists b, (m_nextState br), r. rewrite <- app_assoc.
              repeat split; try done; [left|].
              exists st, br. repeat split; try done. apply Hown. left.
           ++ exists b2, t2, r2. split; [by right|done].
        -- intros (b0 & t & r & Hb0 & -> & He & Ht & Hf & Hd).
           apply elem_of_cons in Hb0 as [->|Hb0].
           ++ left. exists r. rewrite <- app_assoc. split; [done|].
              by rewrite <- (edge_target _ _ _ _ br He Hbr).
           ++ right. exists b0, t, r. done.
    + cbn [currentPath paths setCurrentPath] in *.
      destruct (IH f (setCurrentPath (p ++ [mkElement s x]) w) f' w' x Hnd Hown')
        as (new2 & Hp2 & Hnd2 & Hnew2);
        [intros b0 Hb0; apply Hx; by right | done | done |].
      exists new2. split; [done|]. split; [done|].
      intros q. rewrite Hnew2. split.
      * intros (b2 & t2 & r2 & Hb2 & Hrest). exists b2, t2, r2.
        split; [by right|done].
      * intros (b0 & t & r & Hb0 & -> & He & Ht & Hf & Hd).
        apply elem_of_cons in Hb0 as [->|Hb0]; [|by exists b0, t, r].
        exfalso. apply Hrej. split.
        -- by rewrite <- (edge_target _ _ _ _ br He Hbr).
        -- rewrite elem_of_app, list_elem_of_singleton.
           intros [Hin|[= Heq]]; [done|].
           apply (Hx b); [left|done].
Qed.

Lemma findPathsImpl_descents fuel :
  forall state w w',
    findPathsImpl fuel h state w = Ok w' ->
    currentPath w' = currentPath w /\
    exists new, paths w' = paths w ++ new /\ enumerates h (currentPath w) state new.
Proof.
  induction fuel as [|fuel IH]; intros state w w' Hrun; [done|].
  split; [by eapply findPathsImpl_frame|].
  cbn [findPathsImpl] in Hrun. inv_bind Hrun. injection Hrun as <-.
  unfold derefState in Ha. destruct (states h !! state) as [st|] eqn:Hst; [|done].
  injection Ha as <-. cbn [paths setCurrentPath].
  destruct (m_branches st) as [|b bs] eqn:Hbs.
  - injection Ha0 as <-. cbn [paths currentPath setCurrentPath].
    exists [pushState state (currentPath w)]. split; [done|]. split.
    + apply NoDup_singleton.
    + intros q. rewrite list_elem_of_singleton. split.
      * intros ->. exists [mkElement state None]. split; [done|].
        by eapply descent_sink.
      * intros (r & -> & Hd). inversion Hd as [? ? st' Hst' Hnil|? ? b' t r' He]; subst.
        -- done.
        -- destruct He as (st' & br' & Hst' & Hin & _).
           rewrite Hst in Hst'. injection Hst' as <-. rewrite Hbs in Hin.
           by apply not_elem_of_nil in Hin.
  - rewrite <- Hbs in Ha0.
    apply bind_Ok in Ha0 as ([followed w1] & Hloop & Hrep).
    destruct (validHeap_lookup _ _ _ Hvalid Hst) as [Hnd _].
    destruct (forBranches_descents _ (currentPath w) state st IH Hst
                (m_branches st) false
                (setCurrentPath (pushState state (currentPath w)) w) followed w1
                None Hnd (fun _ Hb0 => Hb0)
                (fun b0 _ (Heq : None = Some b0) => eq_ind None
                   (fun o => match o with None => True | Some _ => False end)
                   I _ Heq)
                eq_refl Hloop)
      as (new & Hp & Hndn & Hnew).
    cbn [paths setCurrentPath] in Hp.
    exists new. split.
    { destruct followed; injection Hrep as <-; done. }
    split; [done|].
    intros q. rewrite Hnew. split.
    + intros (b0 & t & r & Hb0 & -> & He & Ht & Hf & Hd).
      exists (mkElement state (Some b0) :: r). split; [done|].
      by eapply descent_step.
    + intros (r & -> & Hd). inversion Hd as [? ? st' Hst' Hnil|? ? b' t r' He Ht Hf Hd']; subst.
      * rewrite Hst in Hst'. injection Hst' as <-. congruence.
      * exists b', t, r'. repeat split; try done.
        destruct He as (st' & br' & Hst' & Hin & _). congruence.
Qed.
End Descents.

(** *** Properties of descents *)

Lemma edge_functional h s b t t' : edge h s b t -> edge h s b t' -> t = t'.
Proof.
  intros (_ & br & _ & _ & Hbr & <-) (_ & br' & _ & _ & Hbr' & <-). congruence.
Qed.

Lemma edge_allPairs h s b t : edge h s b t -> mkElement s (Some b) ∈ allPairs h.
Proof. intros (st & _ & Hst & Hb & _). by eapply elem_of_allPairs. Qed.

Lemma descent_sinkPath h p s r : descent h p s r -> sinkPath h s r.
Proof.
  induction 1 as [p s st Hst Hnil|p s b t r He Ht Hf Hd IH].
  - by eapply sinkPath_sink.
  - by eapply sinkPath_step.
Qed.

Lemma sinkPath_head h s r : sinkPath h s r -> exists x r', r = mkElement s x :: r'.
Proof. destruct 1; eauto. Qed.

Lemma sinkPath_linked h s r : sinkPath h s r -> linked h r.
Proof.
  induction 1 as [s st Hst Hnil|s b t r He Hr IH].
  - simpl. eauto.
  - destruct (sinkPath_head _ _ _ Hr) as (x & r' & ->).
    change (linked h (mkElement s (Some b) :: mkElement t x :: r'))
      with ((exists b0, Some b = Some b0 /\ edge h s b0 t) /\
            linked h (mkElement t x :: r')).
    eauto.
Qed.

Lemma descent_NoDup h p s r :
  descent h p s r ->
  NoDup r /\ forall e, e ∈ r -> is_Some (m_branch e) -> e ∉ p.
Proof.
  induction 1 as [p s st Hst Hnil|p s b t r He Ht Hf Hd [IHnd IHfresh]].
  - split; [apply NoDup_singleton|].
    intros e ->%list_elem_of_singleton [b [=]].
  - split.
    + apply NoDup_cons. split; [|done].
      intros Hin. apply (IHfresh _ Hin); [by exists b|].
      apply elem_of_app. right. by apply list_elem_of_singleton.
    + intros e [->|Hin]%elem_of_cons Hsome; [done|].
      intros Hp. apply (IHfresh _ Hin Hsome). apply elem_of_app. by left.
Qed.

Lemma descent_length h p s r : descent h p s r -> length r <= S (unused h p).
Proof.
  induction 1 as [p s st Hst Hnil|p s b t r He Ht Hf Hd IH].
  - cbn [length]. lia.
  - cbn [length].
    pose proof (unused_snoc h p _ (edge_allPairs _ _ _ _ He) Hf). lia.
Qed.

Lemma descent_steps h p s r :
  descent h p s r ->
  forall i e1 e2, r !! i = Some e1 -> r !! S i = Some e2 ->
    m_state e1 <> m_state e2 /\
    exists b, m_branch e1 = Some b /\ edge h (m_state e1) b (m_state e2).
Proof.
  induction 1 as [p s st Hst Hnil|p s b t r He Ht Hf Hd IH]; intros i e1 e2 H1 H2.
  - destruct i; done.
  - destruct i as [|i].
    + injection H1 as <-.
      destruct (sinkPath_head _ _ _ (descent_sinkPath _ _ _ _ Hd)) as (x & r' & ->).
      injection H2 as <-. simpl. eauto.
    + by apply (IH i).
Qed.

(** *** The result of a whole enumeration *)

Lemma findPaths_enumerates h start fuel :
  validHeap h -> start < length (states h) -> branchCount h < fuel ->
  exists w,
    findPaths fuel h start = Ok w /\ currentPath w = [] /\
    NoDup (paths w) /\ forall q, q ∈ paths w <-> descent h [] start q.
Proof.
  intros Hvalid Hstart Hfuel.
  destruct (findPathsImpl_total h Hvalid fuel start (mkWorld [] [] []) Hstart)
    as (w & Hrun & Hcur).
  { simpl. rewrite unused_nil. done. }
  exists w. split; [done|]. split; [done|].
  apply (findPathsImpl_descents h Hvalid) in Hrun as (_ & new & Hp & Hnd & Hnew).
  simpl in Hp, Hnew. rewrite Hp. split; [done|].
  intros q. rewrite Hnew. split.
  - intros (r & -> & Hd). done.
  - intros Hd. eauto.
Qed.

(** *** createGraph: the first loop *)

Lemma createStates_clash graph :
  forall (m : gmap string nat) h,
    ~ (NoDup graph.*1 /\ forall n, n ∈ graph.*1 -> m !! n = None) ->
    exists n,
      createStates graph m h = Err (DuplicateState n) /\
      (is_Some (m !! n) \/
       exists i j, i < j /\ graph.*1 !! i = Some n /\ graph.*1 !! j = Some n).
Proof.
  induction graph as [|[k names] rest IH]; intros m h Hbad.
  - exfalso. apply Hbad. split; [constructor|].
    intros n Hn. by apply not_elem_of_nil in Hn.
  - cbn [createStates]. destruct (m !! k) as [p|] eqn:Hk.
    + exists k. split; [done|]. left. rewrite Hk. by eexists.
    + cbn [newState].
      destruct (IH (<[k := length (states h)]> m)
                  (mkHeap (states h ++ [mkState k []]) (branches h)))
        as (n & Hrun & Hn).
      { intros [Hnd Hfree]. apply Hbad. cbn [fmap list_fmap fst]. split.
        - apply NoDup_cons. split; [|done].
          intros Hin. specialize (Hfree _ Hin). by rewrite lookup_insert_eq in Hfree.
        - intros n [->|Hin]%elem_of_cons; [done|].
          specialize (Hfree _ Hin).
          destruct (decide (k = n)) as [->|Hne]; [by rewrite lookup_insert_eq in Hfree|].
          by rewrite lookup_insert_ne in Hfree. }
      exists n. split; [done|].
      destruct Hn as [Hsome|(i & j & Hij & Hi & Hj)].
      * destruct (decide (k = n)) as [->|Hne].
        -- right.
           assert (n ∈ rest.*1) as Hin.
           { clear -Hrun. revert Hrun.
             generalize (<[n:=length (states h)]> m).
             generalize (mkHeap (states h ++ [mkState n []]) (branches h)).
             induction rest as [|[k' names'] rest IH]; intros h' m' Hrun; [done|].
             cbn [createStates] in Hrun. cbn [fmap list_fmap fst].
             destruct (m' !! k') eqn:Hk'.
             - injection Hrun as ->. left.
             - right. eapply IH. exact Hrun. }
           apply list_elem_of_lookup in Hin as [j Hj].
           exists 0, (S j). split; [lia|]. done.
        -- left. by rewrite lookup_insert_ne in Hsome.
      * right. exists (S i), (S j). split; [lia|]. done.
Qed.

Lemma createStates_Ok graph :
  forall (m : gmap string nat) h,
    NoDup graph.*1 -> (forall n, n ∈ graph.*1 -> m !! n = None) ->
    exists m' h',
      createStates graph m h = Ok (m', h') /\
      states h' = states h ++ map (fun e => mkState e.1 []) graph /\
      branches h' = branches h /\
      (forall n, n ∈ graph.*1 ->
         exists p, m' !! n = Some p /\ p < length (states h')) /\
      (forall n, n ∉ graph.*1 -> m' !! n = m !! n).
Proof.
  induction graph as [|[k names] rest IH]; intros m h Hnd Hfree.
  - exists m, h. cbn [createStates map]. rewrite app_nil_r.
    repeat split; try done. intros n Hn. by apply not_elem_of_nil in Hn.
  - cbn [fmap list_fmap fst] in Hnd, Hfree. apply NoDup_cons in Hnd as [Hk Hnd].
    cbn [createStates]. rewrite (Hfree k) by left. cbn [newState].
    destruct (IH (<[k := length (states h)]> m)
                (mkHeap (states h ++ [mkState k []]) (branches h)) Hnd)
      as (m' & h' & Hrun & Hst & Hbr & Hin & Hout).
    { intros n Hn. rewrite lookup_insert_ne by (intros ->; done).
      apply Hfree. by right. }
    cbn [states branches] in Hst, Hbr.
    exists m', h'. split; [done|]. split; [|split; [done|split]].
    + rewrite Hst, <- app_assoc. done.
    + cbn [fmap list_fmap fst]. intros n [->|Hn]%elem_of_cons; [|by apply Hin].
      rewrite (Hout _ Hk), lookup_insert_eq. eexists. split; [done|].
      rewrite Hst, !length_app. cbn [length]. lia.
    + cbn [fmap list_fmap fst]. intros n [Hne Hn]%not_elem_of_cons.
      rewrite (Hout _ Hn). by rewrite lookup_insert_ne.
Qed.

(** *** createGraph: the second loop *)

Lemma validBranch_grow h h' b ext :
  branches h' = branches h ++ ext -> length (states h') = length (states h) ->
  validBranch h b -> validBranch h' b.
Proof.
  intros Hbr Hlen (br & Hb & Ht)%validBranch_inv. unfold validBranch.
  rewrite Hbr, (lookup_app_l_Some _ _ _ _ Hb), Hlen. done.
Qed.

Lemma validBranch_lt h b : validBranch h b -> b < length (branches h).
Proof. intros (br & Hb & _)%validBranch_inv. by eapply lookup_lt_Some. Qed.

(** Linking one successor: a new [Branch] object, appended to the branch
    list of [state]. *)
Lemma validHeap_link h state target :
  validHeap h -> target < length (states h) ->
  validHeap (pushBranch state (length (branches h)) (newBranch target h).2) /\
  length (states (pushBranch state (length (branches h)) (newBranch target h).2))
    = length (states h).
Proof.
  intros Hvalid Htarget. set (h' := pushBranch _ _ _).
  assert (length (states h') = length (states h)) as Hlen
    by (subst h'; cbn; apply length_alter).
  assert (branches h' = branches h ++ [mkBranch target]) as Hbr by done.
  split; [|done].
  assert (forall st, validState h st -> validState h' st) as Hkeep.
  { intros st [Hnd Hall]. split; [done|].
    eapply Forall_impl; [exact Hall|]. intros b. by eapply validBranch_grow. }
  apply Forall_lookup. intros i st' Hi. subst h'. cbn [states pushBranch] in Hi.
  destruct (decide (i = state)) as [->|Hne].
  - rewrite list_lookup_alter_eq in Hi.
    apply fmap_Some in Hi as (st & Hst & ->). cbn [states newBranch snd] in Hst.
    destruct (validHeap_lookup _ _ _ Hvalid Hst) as [Hnd Hall].
    split; cbn [m_branches].
    + apply NoDup_app. split; [done|]. split; [|apply NoDup_singleton].
      intros b Hb ->%list_elem_of_singleton.
      rewrite Forall_forall in Hall. apply Hall, validBranch_lt in Hb.
      cbn in Hb. lia.
    + apply Forall_app. split.
      * eapply Forall_impl; [exact Hall|]. intros b. by eapply validBranch_grow.
      * apply Forall_singleton. unfold validBranch.
        rewrite Hbr, lookup_app_r, Nat.sub_diag, Hlen by done. done.
  - rewrite list_lookup_alter_ne in Hi by congruence.
    apply Hkeep. by eapply validHeap_lookup.
Qed.

Section Link.
Variable m : gmap string nat.

(** Every outcome of the inner loop. *)
Lemma linkBranches_outcome state names :
  forall h,
    validHeap h -> (forall n p, m !! n = Some p -> p < length (states h)) ->
    match linkBranches m state names h with
    | Ok h' =>
        (forall n, n ∈ names -> is_Some (m !! n)) /\
        validHeap h' /\ length (states h') = length (states h)
    | Err e => exists n, e = UnresolvedReference n /\ n ∈ names /\ m !! n = None
    end.
Proof.
  induction names as [|name rest IH]; intros h Hvalid Hm.
  - cbn. split; [|done]. intros n Hn. by apply not_elem_of_nil in Hn.
  - cbn [linkBranches]. destruct (m !! name) as [target|] eqn:Hname.
    + destruct (validHeap_link h state target Hvalid (Hm _ _ Hname)) as [Hvalid' Hlen].
      cbn [newBranch snd] in *.
      specialize (IH _ Hvalid'). rewrite Hlen in IH. specialize (IH Hm).
      destruct (linkBranches m state rest _) as [h'|e].
      * destruct IH as (Hres & Hv & Hl). split; [|done].
        intros n [->|Hn]%elem_of_cons; [by eexists|by apply Hres].
      * destruct IH as (n & -> & Hn & Hnone). exists n. split; [done|].
        split; [by right|done].
    + exists name. split; [done|]. split; [left|done].
Qed.

(** Every outcome of the outer loop, when each key has its state. *)
Lemma linkStates_outcome graph :
  forall h,
    validHeap h -> (forall n p, m !! n = Some p -> p < length (states h)) ->
    (forall k, k ∈ graph.*1 -> is_Some (m !! k)) ->
    match linkStates m graph h with
    | Ok h' =>
        (forall k names n, (k, names) ∈ graph -> n ∈ names -> is_Some (m !! n)) /\
        validHeap h' /\ length (states h') = length (states h)
    | Err e =>
        exists k names n,
          e = UnresolvedReference n /\ (k, names) ∈ graph /\ n ∈ names /\
          m !! n = None
    end.
Proof.
  induction graph as [|[k names] rest IH]; intros h Hvalid Hm Hkeys.
  - cbn. split; [|done]. intros k names n Hin. by apply not_elem_of_nil in Hin.
  - cbn [linkStates]. cbn [fmap list_fmap fst] in Hkeys.
    destruct (Hkeys k) as [state Hstate]; [left|]. rewrite Hstate.
    pose proof (linkBranches_outcome state names h Hvalid Hm) as Hinner.
    destruct (linkBranches m state names h) as [h1|e]; cbn [bind].
    + destruct Hinner as (Hres & Hvalid1 & Hlen1).
      specialize (IH h1 Hvalid1). rewrite Hlen1 in IH.
      specialize (IH Hm (fun k' Hk' => Hkeys k' (proj2 (elem_of_cons _ _ _) (or_intror Hk')))).
      destruct (linkStates m rest h1) as [h'|e].
      * destruct IH as (Hres' & Hv & Hl). split; [|done].
        intros k' names' n [[= -> ->]|Hin]%elem_of_cons Hn; [by apply Hres|].
        by eapply Hres'.
      * destruct IH as (k' & names' & n & -> & Hin & Hn & Hnone).
        exists k', names', n. split; [done|]. split; [by right|done].
    + destruct Hinner as (n & -> & Hn & Hnone).
      exists k, names, n. split; [done|]. split; [left|done].
Qed.
End Link.

(** The state of the graph after the first loop is safe to link. *)
Lemma validHeap_fresh graph :
  validHeap (mkHeap (map (fun e : string * list string => mkState e.1 []) graph) []).
Proof.
  unfold validHeap. cbn [states]. apply Forall_forall.
  intros st (e & <- & _)%list_elem_of_In%in_map_iff.
  split; cbn; constructor.
Qed.

(** Every outcome of [createGraph] on the entries of a map. *)
Lemma createGraph_outcome graph :
  NoDup graph.*1 ->
  match createGraph graph with
  | Ok (h, start) =>
      (forall k names n, (k, names) ∈ graph -> n ∈ names -> n ∈ graph.*1) /\
      "start" ∈ graph.*1 /\ validHeap h /\ start < length (states h)
  | Err e =>
      (exists k names n,
         e = UnresolvedReference n /\ (k, names) ∈ graph /\ n ∈ names /\
         n ∉ graph.*1)
      \/ (e = MissingEntryState /\ ("start" ∉ graph.*1) /\
          forall k names n, (k, names) ∈ graph -> n ∈ names -> n ∈ graph.*1)
  end.
Proof.
  intros Hnd. unfold createGraph.
  destruct (createStates_Ok graph ∅ emptyHeap Hnd (fun n _ => lookup_empty n))
    as (m & h0 & Hrun & Hst & Hbr & Hin & Hout).
  rewrite Hrun. cbn [bind].
  assert (forall n, n ∈ graph.*1 <-> is_Some (m !! n)) as Hdom.
  { intros n. split.
    - intros Hn. destruct (Hin _ Hn) as (p & Hp & _). by eexists.
    - intros [p Hp]. destruct (decide (n ∈ graph.*1)) as [|Hn]; [done|].
      rewrite (Hout _ Hn), lookup_empty in Hp. done. }
  assert (forall n p, m !! n = Some p -> p < length (states h0)) as Hm.
  { intros n p Hp. destruct (Hin n) as (p' & Hp' & Hlt); [|congruence].
    apply Hdom. by eexists. }
  assert (validHeap h0) as Hvalid0.
  { destruct h0 as [sts brs]. cbn in Hst, Hbr. subst. apply validHeap_fresh. }
  pose proof (linkStates_outcome m graph h0 Hvalid0 Hm
                (fun k Hk => proj1 (Hdom k) Hk)) as Hlink.
  destruct (linkStates m graph h0) as [h|e]; cbn [bind].
  - destruct Hlink as (Hres & Hvalid & Hlen).
    assert (forall k names n, (k, names) ∈ graph -> n ∈ names -> n ∈ graph.*1) as Hres'
      by (intros k names n Hk Hn; apply Hdom; by eapply Hres).
    destruct (m !! "start") as [start|] eqn:Hstart.
    + split; [done|]. split; [apply Hdom; by eexists|]. split; [done|].
      rewrite Hlen. by eapply Hm.
    + right. split; [done|]. split; [|done].
      intros [p Hp]%Hdom. congruence.
  - destruct Hlink as (k & names & n & -> & Hk & Hn & Hnone). left.
    exists k, names, n. repeat split; try done.
    intros [p Hp]%Hdom. congruence.
Qed.

(** *** Acyclic graphs *)

Lemma reaches_snoc h a s b t : reaches h a s -> edge h s b t -> reaches h a t.
Proof.
  induction 1 as [a b' s He|a b' c s He Hr IH]; intros Hst.
  - eapply reaches_step; [exact He|]. by eapply reaches_edge.
  - eapply reaches_step; [exact He|]. by apply IH.
Qed.

Lemma sinkPath_descent h :
  acyclic h ->
  forall s r, sinkPath h s r ->
    forall p, (forall e, e ∈ p -> reaches h (m_state e) s) -> descent h p s r.
Proof.
  intros Hacyc. induction 1 as [s st Hst Hnil|s b t r He Hr IH]; intros p Hp.
  - by eapply descent_sink.
  - apply descent_step with (t := t); [done| | |].
    + intros ->. apply (Hacyc s). by eapply reaches_edge.
    + intros Hin. apply (Hacyc s). exact (Hp _ Hin).
    + apply IH. intros e [Hin|Heq%list_elem_of_singleton]%elem_of_app.
      * eapply reaches_snoc; [by apply Hp|exact He].
      * subst e. by eapply reaches_edge.
Qed.

Lemma descending_edge rank h s b t :
  descending rank h -> edge h s b t -> rank t < rank s.
Proof.
  intros Hdesc (st & br & Hst & Hb & Hbr & <-).
  unfold descending in Hdesc. rewrite Forall_forall in Hdesc.
  specialize (Hdesc (s, st)). cbn in Hdesc.
  assert ((s, st) ∈ imap pair (states h)) as Hin
    by (apply elem_of_lookup_imap; eauto).
  specialize (Hdesc Hin). rewrite Forall_forall in Hdesc.
  specialize (Hdesc b Hb). unfold descends in Hdesc. by rewrite Hbr in Hdesc.
Qed.

Lemma descending_acyclic rank h : descending rank h -> acyclic h.
Proof.
  intros Hdesc.
  assert (forall s t, reaches h s t -> rank t < rank s) as Hlt.
  { induction 1 as [s b t He|s b t u He Hr IH].
    - by eapply descending_edge.
    - pose proof (descending_edge _ _ _ _ _ Hdesc He). lia. }
  intros s Hs. apply Hlt in Hs. lia.
Qed.

(** *** The program on more fuel *)

Lemma run_mono fuel fuel' graph r :
  fuel <= fuel' -> run fuel graph = Ok r -> run fuel' graph = Ok r.
Proof.
  intros Hle Hrun. unfold run in *.
  apply bind_Ok in Hrun as ([h start] & Hbuild & Hrun). rewrite Hbuild. cbn [bind].
  apply bind_Ok in Hrun as (w & Hfind & Hrun). unfold findPaths in *.
  by rewrite (findPathsImpl_mono h fuel fuel' _ _ _ Hle Hfind).
Qed.

Lemma descent_no_self h p s r :
  descent h p s r ->
  forall e b, e ∈ r -> m_branch e = Some b -> ~ edge h (m_state e) b (m_state e).
Proof.
  induction 1 as [p s st Hst Hnil|p s b t r He Ht Hf Hd IH]; intros e b0 Hin Hb0.
  - apply list_elem_of_singleton in Hin as ->. done.
  - apply elem_of_cons in Hin as [->|Hin]; [|by apply IH].
    injection Hb0 as <-. cbn. intros Hself.
    apply Ht. by eapply edge_functional.
Qed.

(** Whatever [createGraph] returns is a store the search can walk. *)
Lemma createGraph_valid graph h start :
  createGraph graph = Ok (h, start) ->
  validHeap h /\ start < length (states h).
Proof.
  intros Hrun.
  destruct (decide (NoDup graph.*1)) as [Hnd|Hdup].
  - pose proof (createGraph_outcome graph Hnd) as Hout. rewrite Hrun in Hout.
    by destruct Hout as (_ & _ & Hvalid & Hstart).
  - destruct (createStates_clash graph ∅ emptyHeap) as (n & Hfail & _).
    { intros [Hnd _]. done. }
    unfold createGraph in Hrun. rewrite Hfail in Hrun. done.
Qed.

(** * The properties of the specification *)

(** C1. For the graph of the source file ([ParseGraph]), in whatever order
    the map hands out its entries, the program finds exactly four paths, in
    this order: start, start_loop, loop_1, loop_2, start_loop, s1, accept;
    start, start_loop, loop_1, loop_2, accept; start, start_loop, s1, accept;
    start, s1, accept.  It reports no loop. *)
Theorem ParseGraph_paths graph fuel :
  graph ≡ₚ ParseGraph -> 8 < fuel ->
  run fuel graph =
    Ok ([ ["start"; "start_loop"; "loop_1"; "loop_2"; "start_loop"; "s1"; "accept"];
          ["start"; "start_loop"; "loop_1"; "loop_2"; "accept"];
          ["start"; "start_loop"; "s1"; "accept"];
          ["start"; "s1"; "accept"] ],
        []).
Proof.
  intros Hperm Hfuel. symmetry in Hperm. apply permutations_Permutation in Hperm.
  apply (run_mono 9); [lia|].
  revert graph Hperm. apply Forall_forall.
  apply (bool_decide_unpack _). vm_compute. exact I.
Qed.

Lemma ParseGraph_paths_witness :
  run 9 ParseGraph =
    Ok ([ ["start"; "start_loop"; "loop_1"; "loop_2"; "start_loop"; "s1"; "accept"];
          ["start"; "start_loop"; "loop_1"; "loop_2"; "accept"];
          ["start"; "start_loop"; "s1"; "accept"];
          ["start"; "s1"; "accept"] ],
        []).
Proof. apply ParseGraph_paths; [reflexivity|lia]. Defined.

(** C2, as the code has it.  For the graph start -> loop_a -> loop_b ->
    loop_a, in whatever order the map hands out its entries, the program
    finds no path and reports one loop, and the path printed with the report
    is start, loop_a, loop_b, loop_a: the state at which the search gives up
    is already on the path when it is printed. *)
Theorem DeadLoopGraph_report graph fuel :
  graph ≡ₚ DeadLoopGraph -> 3 < fuel ->
  run fuel graph = Ok ([], [ ["start"; "loop_a"; "loop_b"; "loop_a"] ]).
Proof.
  intros Hperm Hfuel. symmetry in Hperm. apply permutations_Permutation in Hperm.
  apply (run_mono 4); [lia|].
  revert graph Hperm. apply Forall_forall.
  apply (bool_decide_unpack _). vm_compute. exact I.
Qed.

Lemma DeadLoopGraph_report_witness :
  run 4 DeadLoopGraph = Ok ([], [ ["start"; "loop_a"; "loop_b"; "loop_a"] ]).
Proof. apply DeadLoopGraph_report; [reflexivity|lia]. Defined.

(** C2, as stated, fails: the reported path is never start, loop_a, loop_b. *)
Lemma DeadLoopGraph_report_not_three :
  run 4 DeadLoopGraph = Ok ([], [ ["start"; "loop_a"; "loop_b"; "loop_a"] ]) /\
  ~ exists fuel,
      run fuel DeadLoopGraph = Ok ([], [ ["start"; "loop_a"; "loop_b"] ]).
Proof.
  split; [reflexivity|]. intros [fuel Hrun].
  apply (run_mono fuel (fuel + 4)) in Hrun; [|lia].
  assert (run (fuel + 4) DeadLoopGraph
          = Ok ([], [ ["start"; "loop_a"; "loop_b"; "loop_a"] ])) as Hfour
    by (apply (run_mono 4); [lia|reflexivity]).
  rewrite Hfour in Hrun. discriminate Hrun.
Qed.

(** C3. On every graph, cyclic or not, the enumeration terminates with a
    list of paths: a recursion budget one above the number of (state, branch)
    pairs of the graph is always enough, every larger budget gives the same
    result, and no completed path is longer than that budget. *)
Theorem findPaths_terminates h start :
  validHeap h -> start < length (states h) ->
  exists w,
    (forall fuel, branchCount h < fuel -> findPaths fuel h start = Ok w) /\
    forall q, q ∈ paths w -> length q <= S (branchCount h).
Proof.
  intros Hvalid Hstart.
  destruct (findPaths_enumerates h start (S (branchCount h)) Hvalid Hstart)
    as (w & Hrun & _ & _ & Hpaths); [lia|].
  exists w. split.
  - intros fuel Hfuel. unfold findPaths in *.
    eapply findPathsImpl_mono; [|exact Hrun]. lia.
  - intros q Hq%Hpaths. apply descent_length in Hq. by rewrite unused_nil in Hq.
Qed.

Lemma findPaths_terminates_witness :
  exists w,
    (forall fuel, branchCount (built DeadLoopGraph).1 < fuel ->
       findPaths fuel (built DeadLoopGraph).1 (built DeadLoopGraph).2 = Ok w) /\
    forall q, q ∈ paths w -> length q <= S (branchCount (built DeadLoopGraph).1).
Proof.
  apply findPaths_terminates.
  - apply (bool_decide_unpack _). vm_compute. exact I.
  - vm_compute. lia.
Defined.

(** C4. [followBranch] compares the branch itself: a branch that does not
    lead back to the last state is refused exactly when an element of the
    path already pairs that state with that branch.  Hence no completed path
    holds the same (state, chosen branch) pair twice. *)
Theorem no_branch_reuse h start fuel :
  validHeap h -> start < length (states h) -> branchCount h < fuel ->
  (forall b br p s x,
     branches h !! b = Some br -> m_nextState br <> s ->
     followBranch h b (p ++ [mkElement s x]) =
       if decide (mkElement s (Some b) ∈ p ++ [mkElement s x])
       then Ok (false, p ++ [mkElement s x])
       else Ok (true, p ++ [mkElement s (Some b)])) /\
  exists w, findPaths fuel h start = Ok w /\ forall q, q ∈ paths w -> NoDup q.
Proof.
  intros Hvalid Hstart Hfuel. split.
  - intros b br p s x Hbr Hne. rewrite (followBranch_snoc _ _ _ _ _ _ Hbr).
    destruct (decide (mkElement s (Some b) ∈ p ++ [mkElement s x])).
    + rewrite decide_False by tauto. done.
    + rewrite decide_True by tauto. done.
  - destruct (findPaths_enumerates h start fuel Hvalid Hstart Hfuel)
      as (w & Hrun & _ & _ & Hpaths).
    exists w. split; [done|].
    intros q Hq%Hpaths. by apply descent_NoDup in Hq as [Hnd _].
Qed.

Lemma no_branch_reuse_witness :
  (forall b br p s x,
     branches (built ParseGraph).1 !! b = Some br -> m_nextState br <> s ->
     followBranch (built ParseGraph).1 b (p ++ [mkElement s x]) =
       if decide (mkElement s (Some b) ∈ p ++ [mkElement s x])
       then Ok (false, p ++ [mkElement s x])
       else Ok (true, p ++ [mkElement s (Some b)])) /\
  exists w,
    findPaths 9 (built ParseGraph).1 (built ParseGraph).2 = Ok w /\
    forall q, q ∈ paths w -> NoDup q.
Proof.
  apply no_branch_reuse.
  - apply (bool_decide_unpack _). vm_compute. exact I.
  - vm_compute. lia.
  - vm_compute. lia.
Defined.

(** C5. [followBranch] refuses every branch that leads back to the state it
    leaves.  Hence in a completed path no element has chosen a branch of its
    state that targets that same state, and no two consecutive elements are
    at the same state. *)
Theorem no_self_loop h start fuel :
  validHeap h -> start < length (states h) -> branchCount h < fuel ->
  (forall b br p s x,
     branches h !! b = Some br -> m_nextState br = s ->
     followBranch h b (p ++ [mkElement s x]) = Ok (false, p ++ [mkElement s x])) /\
  exists w,
    findPaths fuel h start = Ok w /\
    forall q, q ∈ paths w ->
      (forall e b, e ∈ q -> m_branch e = Some b ->
         ~ edge h (m_state e) b (m_state e)) /\
      (forall i e1 e2, q !! i = Some e1 -> q !! S i = Some e2 ->
         m_state e1 <> m_state e2).
Proof.
  intros Hvalid Hstart Hfuel. split.
  - intros b br p s x Hbr Heq. rewrite (followBranch_snoc _ _ _ _ _ _ Hbr).
    rewrite decide_False by tauto. done.
  - destruct (findPaths_enumerates h start fuel Hvalid Hstart Hfuel)
      as (w & Hrun & _ & _ & Hpaths).
    exists w. split; [done|].
    intros q Hq%Hpaths. split.
    + by eapply descent_no_self.
    + intros i e1 e2 H1 H2. by destruct (descent_steps _ _ _ _ Hq i e1 e2 H1 H2).
Qed.

Lemma no_self_loop_witness :
  (forall b br p s x,
     branches (built ParseGraph).1 !! b = Some br -> m_nextState br = s ->
     followBranch (built ParseGraph).1 b (p ++ [mkElement s x])
       = Ok (false, p ++ [mkElement s x])) /\
  exists w,
    findPaths 9 (built ParseGraph).1 (built ParseGraph).2 = Ok w /\
    forall q, q ∈ paths w ->
      (forall e b, e ∈ q -> m_branch e = Some b ->
         ~ edge (built ParseGraph).1 (m_state e) b (m_state e)) /\
      (forall i e1 e2, q !! i = Some e1 -> q !! S i = Some e2 ->
         m_state e1 <> m_state e2).
Proof.
  apply no_self_loop.
  - apply (bool_decide_unpack _). vm_compute. exact I.
  - vm_compute. lia.
  - vm_compute. lia.
Defined.

(** C6. On an acyclic graph the enumeration lists every path from the
    entry state to a state without branches, each exactly once, and nothing
    else.  A path is its sequence of (state, chosen branch) elements: two
    branches between the same two states make two paths. *)
Theorem acyclic_complete h start fuel :
  validHeap h -> start < length (states h) -> acyclic h -> branchCount h < fuel ->
  exists w,
    findPaths fuel h start = Ok w /\
    NoDup (paths w) /\
    forall q, q ∈ paths w <-> sinkPath h start q.
Proof.
  intros Hvalid Hstart Hacyc Hfuel.
  destruct (findPaths_enumerates h start fuel Hvalid Hstart Hfuel)
    as (w & Hrun & _ & Hnd & Hpaths).
  exists w. split; [done|]. split; [done|].
  intros q. rewrite Hpaths. split.
  - apply descent_sinkPath.
  - intros Hq. apply (sinkPath_descent h Hacyc _ _ Hq).
    intros e He. by apply not_elem_of_nil in He.
Qed.

Lemma acyclic_complete_witness :
  exists w,
    findPaths 5 (built DiamondGraph).1 (built DiamondGraph).2 = Ok w /\
    NoDup (paths w) /\
    forall q, q ∈ paths w <-> sinkPath (built DiamondGraph).1 (built DiamondGraph).2 q.
Proof.
  apply acyclic_complete.
  - apply (bool_decide_unpack _). vm_compute. exact I.
  - vm_compute. lia.
  - apply (descending_acyclic (fun s => 4 - s)).
    apply (bool_decide_unpack _). vm_compute. exact I.
  - vm_compute. lia.
Defined.

(** Two branches between the same two states are two paths that print alike. *)
Example TwinGraph_paths :
  run 3 TwinGraph = Ok ([ ["start"; "accept"]; ["start"; "accept"] ], []) /\
  (do w <- findPaths 3 (built TwinGraph).1 (built TwinGraph).2; Ok (paths w)) =
    Ok [ [mkElement 0 (Some 0); mkElement 1 None];
         [mkElement 0 (Some 1); mkElement 1 None] ].
Proof. split; reflexivity. Qed.

(** C7, as the code has it.  On the entries of a map: if some successor
    name is not a key, the build fails with UnresolvedReference for such a
    name; if every successor name is a key and there is no key "start", it
    fails with MissingEntryState; and without a key "start" it fails either
    way, so no graph is returned. *)
Theorem createGraph_integrity graph :
  NoDup graph.*1 ->
  ((exists k names n, (k, names) ∈ graph /\ n ∈ names /\ n ∉ graph.*1) ->
     exists n, createGraph graph = Err (UnresolvedReference n) /\ n ∉ graph.*1) /\
  ("start" ∉ graph.*1 ->
     (forall k names n, (k, names) ∈ graph -> n ∈ names -> n ∈ graph.*1) ->
     createGraph graph = Err MissingEntryState) /\
  ("start" ∉ graph.*1 -> exists e, createGraph graph = Err e).
Proof.
  intros Hnd. pose proof (createGraph_outcome graph Hnd) as Hout.
  destruct (createGraph graph) as [[h start]|e].
  - destruct Hout as (Hres & Hstart & _). split; [|split].
    + intros (k & names & n & Hk & Hn & Hmiss). exfalso. by eapply Hmiss, Hres.
    + intros Hno. done.
    + intros Hno. done.
  - destruct Hout as [(k & names & n & -> & Hk & Hn & Hmiss)|(-> & Hno & Hres)];
      (split; [|split]).
    + intros _. by exists n.
    + intros _ Hres. exfalso. by eapply Hmiss, Hres.
    + intros _. by eexists.
    + intros (k & names & n & Hk & Hn & Hmiss). exfalso. by eapply Hmiss, Hres.
    + done.
    + intros _. by eexists.
Qed.

Lemma createGraph_integrity_witness :
  ((exists k names n,
      (k, names) ∈ [("start", ["s1"])] /\ n ∈ names /\ n ∉ [("start", ["s1"])].*1) ->
     exists n,
       createGraph [("start", ["s1"])] = Err (UnresolvedReference n) /\
       n ∉ [("start", ["s1"])].*1) /\
  createGraph [("s1", ["accept"]); ("accept", [])] = Err MissingEntryState.
Proof.
  split.
  - apply (createGraph_integrity [("start", ["s1"])]).
    apply (bool_decide_unpack _). vm_compute. exact I.
  - apply (createGraph_integrity [("s1", ["accept"]); ("accept", [])]).
    + apply (bool_decide_unpack _). vm_compute. exact I.
    + apply (bool_decide_unpack _). vm_compute. exact I.
    + intros k names n Hk Hn.
      apply elem_of_cons in Hk as [[= -> ->]|Hk].
      * apply list_elem_of_singleton in Hn as ->.
        apply (bool_decide_unpack _). vm_compute. exact I.
      * apply list_elem_of_singleton in Hk as [= -> ->].
        by apply not_elem_of_nil in Hn.
Defined.

(** C7, as stated, fails: a map without "start" whose only successor name
    is undeclared is refused for the undeclared name, not for the missing
    entry state. *)
Lemma createGraph_missing_start_not_reported :
  ("start" ∉ [("s1", ["accept"])].*1) /\
  createGraph [("s1", ["accept"])] = Err (UnresolvedReference "accept") /\
  createGraph [("s1", ["accept"])] <> Err MissingEntryState.
Proof.
  split; [|split].
  - apply (bool_decide_unpack _). vm_compute. exact I.
  - reflexivity.
  - discriminate.
Qed.

(** C8. When the sequence of entries names a state twice, the build fails
    with DuplicateState for a name that occurs twice; the second insertion is
    refused and nothing is built. *)
Theorem createGraph_duplicate graph :
  ~ NoDup graph.*1 ->
  exists name,
    createGraph graph = Err (DuplicateState name) /\
    exists i j, i < j /\ graph.*1 !! i = Some name /\ graph.*1 !! j = Some name.
Proof.
  intros Hdup.
  destruct (createStates_clash graph ∅ emptyHeap) as (n & Hrun & Hn).
  { intros [Hnd _]. done. }
  exists n. split.
  - unfold createGraph. rewrite Hrun. done.
  - destruct Hn as [[p Hp]|Hn]; [|done]. by rewrite lookup_empty in Hp.
Qed.

Lemma createGraph_duplicate_witness :
  exists name,
    createGraph [("start", ["s1"]); ("s1", []); ("start", [])]
      = Err (DuplicateState name) /\
    exists i j,
      i < j /\
      [("start", ["s1"]); ("s1", []); ("start", [])].*1 !! i = Some name /\
      [("start", ["s1"]); ("s1", []); ("start", [])].*1 !! j = Some name.
Proof.
  apply createGraph_duplicate.
  apply (bool_decide_unpack _). vm_compute. exact I.
Defined.

(** C9. A call of [findPathsImpl] returns with the path it was given, at a
    state without branches, at a state some branch of which is followed, and
    at a state all of whose branches are refused alike. *)
Theorem findPathsImpl_restores_path h fuel state w :
  validHeap h -> state < length (states h) -> branchCount h < fuel ->
  exists w', findPathsImpl fuel h state w = Ok w' /\ currentPath w' = currentPath w.
Proof.
  intros Hvalid Hstate Hfuel.
  apply (findPathsImpl_total h Hvalid); [done|].
  pose proof (unused_le h (currentPath w)). lia.
Qed.

Lemma findPathsImpl_restores_path_witness :
  exists w',
    findPathsImpl 9 (built ParseGraph).1 1
      (mkWorld [] [mkElement 0 (Some 0)] []) = Ok w' /\
    currentPath w' = [mkElement 0 (Some 0)].
Proof.
  apply (findPathsImpl_restores_path (built ParseGraph).1 9 1
           (mkWorld [] [mkElement 0 (Some 0)] [])).
  - apply (bool_decide_unpack _). vm_compute. exact I.
  - vm_compute. lia.
  - vm_compute. lia.
Defined.

(** C10. Every completed path is well formed: its last element has no
    chosen branch and is at a state without branches; every earlier element
    has chosen a branch of its own state, and that branch leads to the state
    of the next element.  The path starts at the entry state. *)
Theorem completed_paths_linked h start fuel :
  validHeap h -> start < length (states h) -> branchCount h < fuel ->
  exists w,
    findPaths fuel h start = Ok w /\
    forall q, q ∈ paths w ->
      linked h q /\ exists x r, q = mkElement start x :: r.
Proof.
  intros Hvalid Hstart Hfuel.
  destruct (findPaths_enumerates h start fuel Hvalid Hstart Hfuel)
    as (w & Hrun & _ & _ & Hpaths).
  exists w. split; [done|].
  intros q Hq%Hpaths%descent_sinkPath. split.
  - by eapply sinkPath_linked.
  - by eapply sinkPath_head.
Qed.

Lemma completed_paths_linked_witness :
  exists w,
    findPaths 9 (built ParseGraph).1 (built ParseGraph).2 = Ok w /\
    forall q, q ∈ paths w ->
      linked (built ParseGraph).1 q /\
      exists x r, q = mkElement (built ParseGraph).2 x :: r.
Proof.
  apply completed_paths_linked.
  - apply (bool_decide_unpack _). vm_compute. exact I.
  - vm_compute. lia.
  - vm_compute. lia.
Defined.

(** * Further properties of the code *)

(** ** createGraph *)

(** X1. On the entries of a map, [createGraph] returns a graph exactly when
    every successor name is a key and "start" is a key. *)
Theorem createGraph_succeeds_iff graph :
  NoDup graph.*1 ->
  (exists h start, createGraph graph = Ok (h, start)) <->
  (forall k names n, (k, names) ∈ graph -> n ∈ names -> n ∈ graph.*1) /\
  "start" ∈ graph.*1.
Proof.
  intros Hnd. pose proof (createGraph_outcome graph Hnd) as Hout.
  destruct (createGraph graph) as [[h start]|e].
  - destruct Hout as (Hres & Hstart & _). split; [done|]. intros _. eauto.
  - split; [intros (h & start & [=])|]. intros [Hres Hstart].
    destruct Hout as [(k & names & n & _ & Hk & Hn & Hmiss)|(_ & Hno & _)].
    + exfalso. by eapply Hmiss, Hres.
    + done.
Qed.

Lemma createGraph_succeeds_iff_witness :
  (exists h start, createGraph DiamondGraph = Ok (h, start)) <->
  (forall k names n, (k, names) ∈ DiamondGraph -> n ∈ names -> n ∈ DiamondGraph.*1) /\
  "start" ∈ DiamondGraph.*1.
Proof.
  apply createGraph_succeeds_iff.
  apply (bool_decide_unpack _). vm_compute. exact I.
Defined.

(** *** What the first loop leaves in the map and in the store *)

Lemma createStates_other graph :
  forall (m m' : gmap string nat) h h' n,
    createStates graph m h = Ok (m', h') -> n ∉ graph.*1 -> m' !! n = m !! n.
Proof.
  induction graph as [|[k names] rest IH]; intros m m' h h' n Hrun Hn.
  - by injection Hrun as <- <-.
  - cbn [createStates] in Hrun. destruct (m !! k) eqn:Hk; [done|].
    cbn [fmap list_fmap fst] in Hn. apply not_elem_of_cons in Hn as [Hne Hn].
    rewrite (IH _ _ _ _ _ Hrun Hn). by rewrite lookup_insert_ne.
Qed.

Lemma createStates_store graph :
  forall (m m' : gmap string nat) h h',
    createStates graph m h = Ok (m', h') ->
    states h' = states h ++ map (fun e => mkState e.1 []) graph /\
    branches h' = branches h.
Proof.
  induction graph as [|[k names] rest IH]; intros m m' h h' Hrun.
  - injection Hrun as <- <-. by rewrite app_nil_r.
  - cbn [createStates] in Hrun. destruct (m !! k) eqn:Hk; [done|].
    apply IH in Hrun as [Hst Hbr]. cbn [states branches newState] in *.
    split; [|done]. by rewrite Hst, <- app_assoc.
Qed.

Lemma createStates_index graph :
  forall (m m' : gmap string nat) h h' i n,
    createStates graph m h = Ok (m', h') -> NoDup graph.*1 ->
    graph.*1 !! i = Some n -> m' !! n = Some (length (states h) + i).
Proof.
  induction graph as [|[k names] rest IH]; intros m m' h h' i n Hrun Hnd Hi; [done|].
  cbn [createStates] in Hrun. destruct (m !! k) eqn:Hk; [done|].
  cbn [fmap list_fmap fst] in Hnd, Hi. apply NoDup_cons in Hnd as [Hfresh Hnd].
  destruct i as [|i].
  - injection Hi as <-.
    rewrite (createStates_other _ _ _ _ _ _ Hrun Hfresh), lookup_insert_eq.
    f_equal. lia.
  - rewrite (IH _ _ _ _ _ _ Hrun Hnd Hi). cbn [states newState fst snd].
    rewrite length_app. cbn [length]. f_equal. lia.
Qed.

(** After the first loop a name is mapped to the address [i] exactly when
    it is the key of the [i]-th entry. *)
Lemma createStates_lookup graph (m : gmap string nat) h :
  createStates graph ∅ emptyHeap = Ok (m, h) -> NoDup graph.*1 ->
  forall n i, m !! n = Some i <-> graph.*1 !! i = Some n.
Proof.
  intros Hrun Hnd n i. split.
  - intros Hn. destruct (decide (n ∈ graph.*1)) as [Hin|Hout].
    + apply list_elem_of_lookup in Hin as [j Hj].
      pose proof (createStates_index _ _ _ _ _ _ _ Hrun Hnd Hj) as Hn'.
      cbn in Hn'. congruence.
    + rewrite (createStates_other _ _ _ _ _ _ Hrun Hout), lookup_empty in Hn. done.
  - intros Hi. by rewrite (createStates_index _ _ _ _ _ _ _ Hrun Hnd Hi).
Qed.

(** *** What the second loop adds to the store *)

Lemma resolvesTo_grow m h h' b n :
  branches h `prefix_of` branches h' -> resolvesTo m h b n -> resolvesTo m h' b n.
Proof.
  intros Hpre (br & Hb & Hn). exists br. split; [|done].
  by eapply prefix_lookup_Some.
Qed.

Lemma mapResult_Forall2 {A B} (f : A -> result B) l l' :
  Forall2 (fun a b => f a = Ok b) l l' -> mapResult f l = Ok l'.
Proof.
  induction 1 as [|a b l l' Hab _ IH]; [done|].
  cbn [mapResult]. rewrite Hab, IH. done.
Qed.

Section Adjacency.
Variable m : gmap string nat.

Lemma linkBranches_adj s names :
  forall h h',
    linkBranches m s names h = Ok h' ->
    branches h `prefix_of` branches h' /\
    length (states h') = length (states h) /\
    (forall i, i <> s -> states h' !! i = states h !! i) /\
    (forall st, states h !! s = Some st ->
       exists new,
         states h' !! s = Some (mkState (m_name st) (m_branches st ++ new)) /\
         Forall2 (resolvesTo m h') new names).
Proof.
  induction names as [|name rest IH]; intros h h' Hrun.
  - injection Hrun as <-. repeat split; try done.
    intros [name bs] Hst. exists []. rewrite app_nil_r. split; [done|constructor].
  - cbn [linkBranches] in Hrun. destruct (m !! name) as [t|] eqn:Hname; [|done].
    cbn [newBranch] in Hrun. apply IH in Hrun as (Hpre & Hlen & Hother & Hs).
    cbn [states branches pushBranch] in *.
    split; [|split; [|split]].
    + etransitivity; [|exact Hpre]. by apply prefix_app_r.
    + by rewrite Hlen, length_alter.
    + intros i Hi. rewrite (Hother i Hi). by apply list_lookup_alter_ne.
    + intros st Hst.
      destruct (Hs (mkState (m_name st) (m_branches st ++ [length (branches h)])))
        as (new & Hs' & Hnew).
      { by rewrite list_lookup_alter_eq, Hst. }
      cbn [m_name m_branches] in Hs'. rewrite <- app_assoc in Hs'.
      exists (length (branches h) :: new). split; [done|].
      constructor; [|done].
      exists (mkBranch t). split; [|done].
      eapply prefix_lookup_Some; [|exact Hpre].
      rewrite lookup_app_r, Nat.sub_diag by done. done.
Qed.

Lemma linkStates_adj rest :
  forall h h',
    linkStates m rest h = Ok h' ->
    branches h `prefix_of` branches h' /\
    length (states h') = length (states h) /\
    (forall i, (forall k, k ∈ rest.*1 -> m !! k <> Some i) ->
       states h' !! i = states h !! i) /\
    (NoDup rest.*1 ->
     (forall k k' s, k ∈ rest.*1 -> k' ∈ rest.*1 ->
        m !! k = Some s -> m !! k' = Some s -> k = k') ->
     forall k names s st,
       (k, names) ∈ rest -> m !! k = Some s -> states h !! s = Some st ->
       exists new,
         states h' !! s = Some (mkState (m_name st) (m_branches st ++ new)) /\
         Forall2 (resolvesTo m h') new names).
Proof.
  induction rest as [|[k0 names0] rest IH]; intros h h' Hrun.
  - injection Hrun as <-. repeat split; try done.
    intros _ _ k names s st Hin. by apply not_elem_of_nil in Hin.
  - cbn [linkStates] in Hrun. destruct (m !! k0) as [s0|] eqn:Hk0; [|done].
    apply bind_Ok in Hrun as (h1 & Hinner & Hrun).
    apply linkBranches_adj in Hinner as (Hpre1 & Hlen1 & Hother1 & Hs1).
    apply IH in Hrun as (Hpre & Hlen & Hother & Hs).
    cbn [fmap list_fmap fst].
    split; [by etransitivity|]. split; [congruence|]. split.
    + intros i Hi. rewrite Hother.
      * apply Hother1. intros ->. apply (Hi k0); [left|done].
      * intros k Hk. apply Hi. by right.
    + intros Hnd Hinj k names s st Hin Hk Hst.
      apply NoDup_cons in Hnd as [Hfresh Hnd].
      apply elem_of_cons in Hin as [[= -> ->]|Hin].
      * assert (s = s0) as -> by congruence.
        destruct (Hs1 _ Hst) as (new & Hs' & Hnew).
        exists new. split.
        -- rewrite Hother; [done|]. intros k' Hk' Hk'0.
           apply Hfresh. rewrite (Hinj k0 k' s0); [done|left|by right|done|done].
        -- eapply Forall2_impl; [exact Hnew|]. intros b n. by apply resolvesTo_grow.
      * assert (k ∈ rest.*1) as Hkin
          by (apply list_elem_of_fmap; exists (k, names); done).
        assert (s <> s0) as Hne.
        { intros ->. apply Hfresh. rewrite (Hinj k0 k s0); [done|left|by right|done|done]. }
        apply (Hs Hnd) with (k := k); [|done|done|by rewrite Hother1].
        intros k1 k2 s' Hk1 Hk2. apply Hinj; by right.
Qed.
End Adjacency.

(** What a successful build leaves behind: the map, and the store entry by
    entry. *)
Lemma createGraph_layout (graph : list (string * list string)) h start :
  createGraph graph = Ok (h, start) ->
  exists m : gmap string nat,
    NoDup graph.*1 /\
    (forall n i, m !! n = Some i <-> graph.*1 !! i = Some n) /\
    m !! "start" = Some start /\
    length (states h) = length graph /\
    forall i k names,
      graph !! i = Some (k, names) ->
      exists bs,
        states h !! i = Some (mkState k bs) /\ Forall2 (resolvesTo m h) bs names.
Proof.
  intros Hrun.
  assert (NoDup graph.*1) as Hnd.
  { destruct (decide (NoDup graph.*1)) as [|Hdup]; [done|].
    destruct (createStates_clash graph ∅ emptyHeap) as (n & Hfail & _).
    { intros [Hnd _]. done. }
    unfold createGraph in Hrun. rewrite Hfail in Hrun. done. }
  unfold createGraph in Hrun.
  apply bind_Ok in Hrun as ([m h0] & Hfirst & Hrun).
  apply bind_Ok in Hrun as (h1 & Hsecond & Hrun).
  destruct (m !! "start") as [start'|] eqn:Hstart; [|done].
  injection Hrun as -> ->.
  pose proof (createStates_lookup _ _ _ Hfirst Hnd) as Hm.
  apply createStates_store in Hfirst as [Hst0 Hbr0]. cbn in Hst0, Hbr0.
  apply linkStates_adj in Hsecond as (_ & Hlen & _ & Hentries).
  exists m. split; [done|]. split; [done|]. split; [done|]. split.
  { by rewrite Hlen, Hst0, length_map. }
  intros i k names Hi.
  assert (graph.*1 !! i = Some k) as Hki by (by rewrite list_lookup_fmap, Hi).
  destruct (Hentries Hnd) with (k := k) (names := names) (s := i) (st := mkState k [])
    as (new & Hs & Hnew).
  - intros k1 k2 s _ _ H1%Hm H2%Hm. congruence.
  - by eapply list_elem_of_lookup_2.
  - by apply Hm.
  - rewrite Hst0. change (map ?f graph) with (f <$> graph).
    by rewrite list_lookup_fmap, Hi.
  - exists new. done.
Qed.

(** X2. Reading a built graph back gives the entries it was built from, in
    the order in which they were iterated: the [i]-th state carries the name
    of the [i]-th entry and its branches lead, in order, to the states named
    in that entry's successor list.  The state returned is the one named
    "start". *)
Theorem createGraph_reads_back (graph : list (string * list string)) h start :
  createGraph graph = Ok (h, start) ->
  readBack h = Ok graph /\
  exists st, states h !! start = Some st /\ m_name st = "start".
Proof.
  intros (m & Hnd & Hm & Hstart & Hlen & Hentries)%createGraph_layout.
  assert (forall n t, m !! n = Some t ->
            exists bs, states h !! t = Some (mkState n bs)) as Hnames.
  { intros n t Hn%Hm. rewrite list_lookup_fmap in Hn.
    destruct (graph !! t) as [[k names]|] eqn:Ht; [|done].
    injection Hn as ->. destruct (Hentries _ _ _ Ht) as (bs & Hs & _). eauto. }
  split.
  - unfold readBack. apply mapResult_Forall2.
    apply Forall2_same_length_lookup. split; [done|].
    intros i st [k names] Hst Hi.
    destruct (Hentries _ _ _ Hi) as (bs & Hs & Hbs).
    assert (st = mkState k bs) as -> by congruence.
    unfold readState. cbn [m_name m_branches].
    rewrite (mapResult_Forall2 (targetName h) bs names); [done|].
    eapply Forall2_impl; [exact Hbs|].
    intros b n (br & Hb & Hn). destruct (Hnames _ _ Hn) as (bs' & Ht).
    unfold targetName, derefBranch, derefState. rewrite Hb. cbn [bind].
    rewrite Ht. done.
  - destruct (Hnames _ _ Hstart) as (bs & Hs). eauto.
Qed.

Lemma createGraph_reads_back_witness :
  readBack (built ParseGraph).1 = Ok ParseGraph /\
  exists st,
    states (built ParseGraph).1 !! (built ParseGraph).2 = Some st /\
    m_name st = "start".
Proof. apply (createGraph_reads_back ParseGraph). reflexivity. Defined.

(** *** Branch objects are not shared *)

Lemma link_owner h s t i st' b :
  validHeap h ->
  states (pushBranch s (length (branches h)) (newBranch t h).2) !! i = Some st' ->
  b ∈ m_branches st' ->
  (b = length (branches h) /\ i = s) \/
  (b <> length (branches h) /\ exists st, states h !! i = Some st /\ b ∈ m_branches st).
Proof.
  intros Hvalid Hi Hb. cbn [states pushBranch newBranch snd] in Hi.
  assert (forall st, states h !! i = Some st -> b ∈ m_branches st ->
            b <> length (branches h)) as Hold.
  { intros st Hst Hin ->.
    destruct (validHeap_lookup _ _ _ Hvalid Hst) as [_ Hall].
    rewrite Forall_forall in Hall. apply Hall, validBranch_lt in Hin. lia. }
  destruct (decide (i = s)) as [->|Hne].
  - rewrite list_lookup_alter_eq in Hi.
    apply fmap_Some in Hi as (st & Hst & ->). cbn [m_branches] in Hb.
    apply elem_of_app in Hb as [Hb|Hb%list_elem_of_singleton]; [|by left].
    right. split; [by eapply Hold|]. eauto.
  - rewrite list_lookup_alter_ne in Hi by congruence.
    right. split; [by eapply Hold|]. eauto.
Qed.

Lemma singleOwner_link h s t :
  validHeap h -> singleOwner h ->
  singleOwner (pushBranch s (length (branches h)) (newBranch t h).2).
Proof.
  intros Hvalid Hown s1 s2 st1 st2 b H1 H2 Hb1 Hb2.
  destruct (link_owner _ _ _ _ _ _ Hvalid H1 Hb1) as [[-> ->]|(Hne1 & st1' & H1' & Hb1')];
    destruct (link_owner _ _ _ _ _ _ Hvalid H2 Hb2) as [[Hb ->]|(Hne2 & st2' & H2' & Hb2')];
    try done.
  by eapply Hown.
Qed.

Lemma linkBranches_owner (m : gmap string nat) s names :
  forall h h',
    validHeap h -> (forall n p, m !! n = Some p -> p < length (states h)) ->
    singleOwner h -> linkBranches m s names h = Ok h' -> singleOwner h'.
Proof.
  induction names as [|name rest IH]; intros h h' Hvalid Hm Hown Hrun.
  - by injection Hrun as <-.
  - cbn [linkBranches] in Hrun. destruct (m !! name) as [t|] eqn:Hname; [|done].
    destruct (validHeap_link h s t Hvalid (Hm _ _ Hname)) as [Hvalid' Hlen].
    cbn [newBranch] in Hrun. cbn [newBranch snd] in Hvalid', Hlen.
    eapply IH; [exact Hvalid'| |by apply (singleOwner_link h s t)|exact Hrun].
    rewrite Hlen. exact Hm.
Qed.

Lemma linkStates_owner (m : gmap string nat) graph :
  forall h h',
    validHeap h -> (forall n p, m !! n = Some p -> p < length (states h)) ->
    (forall k, k ∈ graph.*1 -> is_Some (m !! k)) ->
    singleOwner h -> linkStates m graph h = Ok h' -> singleOwner h'.
Proof.
  induction graph as [|[k names] rest IH]; intros h h' Hvalid Hm Hkeys Hown Hrun.
  - by injection Hrun as <-.
  - cbn [linkStates] in Hrun. destruct (m !! k) as [s|] eqn:Hk; [|done].
    apply bind_Ok in Hrun as (h1 & Hinner & Hrun).
    pose proof (linkBranches_outcome m s names h Hvalid Hm) as Hout.
    rewrite Hinner in Hout. destruct Hout as (_ & Hvalid1 & Hlen1).
    eapply IH; [exact Hvalid1| | | |exact Hrun].
    + rewrite Hlen1. exact Hm.
    + intros k' Hk'. apply Hkeys. cbn [fmap list_fmap fst]. by right.
    + exact (linkBranches_owner m s names h h1 Hvalid Hm Hown Hinner).
Qed.

(** X3. The store of a built graph is sound: every branch of every state
    is a [Branch] object of the store whose target is a state of the store,
    the entry state is a state of the store, the branches of a state are
    distinct objects, and no [Branch] object is in the branch lists of two
    states. *)
Theorem createGraph_store_sound (graph : list (string * list string)) h start :
  createGraph graph = Ok (h, start) ->
  validHeap h /\ start < length (states h) /\ singleOwner h.
Proof.
  intros Hrun.
  destruct (createGraph_layout _ _ _ Hrun) as (m' & Hnd & _).
  pose proof (createGraph_outcome graph Hnd) as Hout. rewrite Hrun in Hout.
  destruct Hout as (_ & _ & Hvalid & Hstart). split; [done|]. split; [done|].
  unfold createGraph in Hrun.
  apply bind_Ok in Hrun as ([m h0] & Hfirst & Hrun).
  apply bind_Ok in Hrun as (h1 & Hsecond & Hrun).
  destruct (m !! "start") as [start'|] eqn:Hs; [|done]. injection Hrun as -> ->.
  pose proof (createStates_lookup _ _ _ Hfirst Hnd) as Hm.
  apply createStates_store in Hfirst as [Hst0 Hbr0]. cbn in Hst0, Hbr0.
  assert (h0 = mkHeap (map (fun e : string * list string => mkState e.1 []) graph) [])
    as -> by (destruct h0; cbn in *; congruence).
  eapply linkStates_owner; [apply validHeap_fresh| | | |exact Hsecond].
  - intros n p Hn%Hm. cbn [states]. rewrite length_map.
    apply lookup_lt_Some in Hn. by rewrite length_fmap in Hn.
  - intros k [i Hi]%list_elem_of_lookup. exists i. by apply Hm.
  - intros s1 s2 st1 st2 b H1 _ Hb1 _. cbn [states] in H1.
    change (map ?f graph) with (f <$> graph) in H1.
    rewrite list_lookup_fmap in H1. apply fmap_Some in H1 as (e & _ & ->).
    by apply not_elem_of_nil in Hb1.
Qed.

Lemma createGraph_store_sound_witness :
  validHeap (built ParseGraph).1 /\
  (built ParseGraph).2 < length (states (built ParseGraph).1) /\
  singleOwner (built ParseGraph).1.
Proof. apply (createGraph_store_sound ParseGraph). reflexivity. Defined.

(** *** Which unresolved name is reported *)

Lemma linkBranches_resolved (m : gmap string nat) s names :
  (forall n, n ∈ names -> is_Some (m !! n)) ->
  forall h, exists h', linkBranches m s names h = Ok h'.
Proof.
  induction names as [|name rest IH]; intros Hres h; [by eexists|].
  cbn [linkBranches]. destruct (Hres name) as [t ->]; [left|].
  cbn [newBranch]. apply IH. intros n Hn. apply Hres. by right.
Qed.

Lemma linkBranches_first (m : gmap string nat) s before n after :
  (forall n', n' ∈ before -> is_Some (m !! n')) -> m !! n = None ->
  forall h, linkBranches m s (before ++ n :: after) h = Err (UnresolvedReference n).
Proof.
  induction before as [|name rest IH]; intros Hres Hn h.
  - cbn [app linkBranches]. by rewrite Hn.
  - cbn [app linkBranches]. destruct (Hres name) as [t ->]; [left|].
    cbn [newBranch]. apply IH; [|done]. intros n' Hn'. apply Hres. by right.
Qed.

Lemma linkStates_first (m : gmap string nat)
    (pre : list (string * list string)) k before n after post :
  (forall k', k' ∈ pre.*1 -> is_Some (m !! k')) -> is_Some (m !! k) ->
  (forall k' names n', (k', names) ∈ pre -> n' ∈ names -> is_Some (m !! n')) ->
  (forall n', n' ∈ before -> is_Some (m !! n')) -> m !! n = None ->
  forall h,
    linkStates m (pre ++ (k, before ++ n :: after) :: post) h
      = Err (UnresolvedReference n).
Proof.
  intros Hkeys [s Hk] Hpre Hbefore Hn.
  induction pre as [|[k0 names0] pre IH]; intros h.
  - cbn [app linkStates]. rewrite Hk.
    by rewrite (linkBranches_first m s before n after Hbefore Hn).
  - cbn [app linkStates]. destruct (Hkeys k0) as [s0 ->]; [left|].
    destruct (linkBranches_resolved m s0 names0) with (h := h) as [h1 ->].
    { intros n' Hn'. eapply Hpre; [left|done]. }
    cbn [bind]. apply IH.
    + intros k' Hk'. apply Hkeys. cbn [fmap list_fmap fst]. by right.
    + intros k' names n' Hin. eapply Hpre. by right.
Qed.

(** X4. The name reported with UnresolvedReference is the first successor
    name, in the order of the entries and then of the successor list, that
    is not a key. *)
Theorem createGraph_first_unresolved
    (graph pre post : list (string * list string)) k before n after :
  NoDup graph.*1 ->
  graph = pre ++ (k, before ++ n :: after) :: post ->
  (forall k' names n', (k', names) ∈ pre -> n' ∈ names -> n' ∈ graph.*1) ->
  (forall n', n' ∈ before -> n' ∈ graph.*1) ->
  n ∉ graph.*1 ->
  createGraph graph = Err (UnresolvedReference n).
Proof.
  intros Hnd Hgraph Hpre Hbefore Hn.
  destruct (createStates_Ok graph ∅ emptyHeap Hnd (fun n _ => lookup_empty n))
    as (m & h0 & Hrun & _ & _ & Hin & Hout).
  unfold createGraph. rewrite Hrun. cbn [bind].
  assert (forall n', n' ∈ graph.*1 -> is_Some (m !! n')) as Hdom.
  { intros n' Hn'. destruct (Hin _ Hn') as (p & Hp & _). by eexists. }
  assert (m !! n = None) as Hnone by (by rewrite (Hout _ Hn), lookup_empty).
  rewrite Hgraph at 1.
  rewrite (linkStates_first m pre k before n after post); [done| | | | |done].
  - intros k' Hk'. apply Hdom. rewrite Hgraph, fmap_app. apply elem_of_app. by left.
  - apply Hdom. rewrite Hgraph, fmap_app. apply elem_of_app. right. left.
  - intros k' names n' Hk' Hn'. apply Hdom. by eapply Hpre.
  - intros n' Hn'. by apply Hdom, Hbefore.
Qed.

Lemma createGraph_first_unresolved_witness :
  createGraph [("start", ["s1"; "s2"]); ("s1", ["s3"; "start"; "s4"]); ("s2", ["s5"])]
    = Err (UnresolvedReference "s3").
Proof.
  apply (createGraph_first_unresolved _ [("start", ["s1"; "s2"])] [("s2", ["s5"])]
           "s1" [] "s3" ["start"; "s4"]).
  - apply (bool_decide_unpack _). vm_compute. exact I.
  - reflexivity.
  - intros k' names n' [= -> ->]%list_elem_of_singleton Hn'.
    apply elem_of_cons in Hn' as [->|Hn']; [|apply list_elem_of_singleton in Hn' as ->];
      apply (bool_decide_unpack _); vm_compute; exact I.
  - intros n' Hn'. by apply not_elem_of_nil in Hn'.
  - apply (bool_decide_unpack _). vm_compute. exact I.
Defined.

(** ** findPathsImpl: the loop reports *)

Section DeadEnds.
Variable h : Heap.
Hypothesis Hvalid : validHeap h.

Lemma forBranches_deadEnds (visit : StatePtr -> World -> result World) p s st :
  (forall t w1 w2, visit t w1 = Ok w2 ->
     currentPath w2 = currentPath w1 /\
     exists newd, cerr w2 = cerr w1 ++ newd /\ reports h (currentPath w1) t newd) ->
  states h !! s = Some st ->
  forall bs followed w followed' w' x,
    NoDup bs -> (forall b, b ∈ bs -> b ∈ m_branches st) ->
    (forall b, b ∈ bs -> x <> Some b) ->
    currentPath w = p ++ [mkElement s x] ->
    forBranches visit h bs followed w = Ok (followed', w') ->
    (exists x', currentPath w' = p ++ [mkElement s x'] /\
                (followed' = false -> x' = x)) /\
    (followed' = true <->
       followed = true \/
       exists b t, b ∈ bs /\ edge h s b t /\ t <> s /\ mkElement s (Some b) ∉ p) /\
    exists newd, cerr w' = cerr w ++ newd /\ NoDup newd /\
      forall d, d ∈ newd <->
        exists b t r, b ∈ bs /\ d = p ++ (mkElement s (Some b) :: r) /\
          edge h s b t /\ t <> s /\ (mkElement s (Some b) ∉ p) /\
          deadEnd h (p ++ [mkElement s (Some b)]) t r.
Proof.
  intros Hvisit Hst.
  induction bs as [|b bs IH]; intros f w f' w' x Hnd Hown Hx Hcur Hrun.
  - injection Hrun as <- <-. split; [by exists x|]. split.
    + split; [by left|]. intros [Hf|(b & t & Hb & _)]; [done|].
      by apply not_elem_of_nil in Hb.
    + exists []. rewrite app_nil_r. split; [done|]. split; [constructor|].
      intros d. split.
      * intros Hd. by apply not_elem_of_nil in Hd.
      * intros (b & _ & _ & Hb & _). by apply not_elem_of_nil in Hb.
  - apply NoDup_cons in Hnd as [Hb Hnd].
    assert (forall b0, b0 ∈ bs -> b0 ∈ m_branches st) as Hown'
      by (intros b0 Hb0; apply Hown; by right).
    cbn [forBranches] in Hrun.
    apply bind_Ok in Hrun as ([taken p1] & Hfb & Hrun).
    rewrite Hcur in Hfb.
    apply followBranch_inv in Hfb as (br & Hbr & [(-> & -> & Hne & Hfresh)|(-> & -> & Hrej)]).
    + inv_bind Hrun. unfold derefBranch in Ha. rewrite Hbr in Ha.
      injection Ha as <-.
      apply Hvisit in Ha0 as (Hcur2 & new1 & Hp1 & Hnd1 & Hnew1).
      cbn [currentPath cerr setCurrentPath] in *.
      assert (mkElement s (Some b) ∉ p) as Hfresh'
        by (intros Hin; apply Hfresh, elem_of_app; by left).
      assert (edge h s b (m_nextState br)) as Hedge.
      { exists st, br. repeat split; try done. apply Hown. left. }
      destruct (IH true a0 f' w' (Some b) Hnd Hown')
        as ((x' & Hcur' & Hx') & Hf' & new2 & Hp2 & Hnd2 & Hnew2);
        [intros b0 Hb0 [= ->]; done | done | done |].
      assert (f' = true) as -> by (apply Hf'; by left).
      split; [by exists x'|]. split.
      { split; [|done]. intros _. right. exists b, (m_nextState br).
        split; [left|done]. }
      exists (new1 ++ new2). split; [by rewrite Hp2, Hp1, app_assoc|]. split.
      * apply NoDup_app. split; [done|]. split; [|done].
        intros d Hd1 Hd2.
        apply Hnew1 in Hd1 as (r1 & -> & _).
        apply Hnew2 in Hd2 as (b2 & t2 & r2 & Hb2 & Heq & _).
        rewrite <- app_assoc in Heq. apply app_inv_head in Heq.
        injection Heq as -> _. done.
      * intros d. rewrite elem_of_app, Hnew1, Hnew2. split.
        -- intros [(r & -> & Hd)|(b2 & t2 & r2 & Hb2 & Hrest)].
           ++ exists b, (m_nextState br), r. rewrite <- app_assoc.
              repeat split; try done. left.
           ++ exists b2, t2, r2. split; [by right|done].
        -- intros (b0 & t & r & Hb0 & -> & He & Ht & Hf & Hd).
           apply elem_of_cons in Hb0 as [->|Hb0].
           ++ left. exists r. rewrite <- app_assoc. split; [done|].
              by rewrite <- (edge_target _ _ _ _ br He Hbr).
           ++ right. exists b0, t, r. done.
    + cbn [currentPath cerr setCurrentPath] in *.
      destruct (IH f (setCurrentPath (p ++ [mkElement s x]) w) f' w' x Hnd Hown')
        as (Hcur' & Hf' & new2 & Hp2 & Hnd2 & Hnew2);
        [intros b0 Hb0; apply Hx; by right | done | done |].
      assert (forall t, edge h s b t -> t <> s -> mkElement s (Some b) ∉ p -> False)
        as Hrefused.
      { intros t He Ht Hf. apply Hrej. split.
        - by rewrite <- (edge_target _ _ _ _ br He Hbr).
        - rewrite elem_of_app, list_elem_of_singleton.
          intros [Hin|[= Heq]]; [done|]. apply (Hx b); [left|done]. }
      split; [done|]. split.
      { rewrite Hf'. split.
        - intros [Hf|(b2 & t2 & Hb2 & Hrest)]; [by left|].
          right. exists b2, t2. split; [by right|done].
        - intros [Hf|(b2 & t2 & Hb2 & He & Ht & Hfr)]; [by left|].
          apply elem_of_cons in Hb2 as [->|Hb2]; [by edestruct Hrefused|].
          right. by exists b2, t2. }
      exists new2. split; [done|]. split; [done|].
      intros d. rewrite Hnew2. split.
      * intros (b2 & t2 & r2 & Hb2 & Hrest). exists b2, t2, r2.
        split; [by right|done].
      * intros (b0 & t & r & Hb0 & -> & He & Ht & Hf & Hd).
        apply elem_of_cons in Hb0 as [->|Hb0]; [|by exists b0, t, r].
        by edestruct Hrefused.
Qed.

Lemma findPathsImpl_deadEnds fuel :
  forall state w w',
    findPathsImpl fuel h state w = Ok w' ->
    currentPath w' = currentPath w /\
    exists newd, cerr w' = cerr w ++ newd /\ reports h (currentPath w) state newd.
Proof.
  induction fuel as [|fuel IH]; intros state w w' Hrun; [done|].
  split; [by eapply findPathsImpl_frame|].
  cbn [findPathsImpl] in Hrun. inv_bind Hrun. injection Hrun as <-.
  unfold derefState in Ha. destruct (states h !! state) as [st|] eqn:Hst; [|done].
  injection Ha as <-. cbn [cerr setCurrentPath].
  destruct (m_branches st) as [|b bs] eqn:Hbs.
  - injection Ha0 as <-. cbn [cerr currentPath setCurrentPath].
    exists []. rewrite app_nil_r. split; [done|]. split; [constructor|].
    intros d. split; [intros Hd; by apply not_elem_of_nil in Hd|].
    intros (r & -> & Hd). exfalso.
    inversion Hd as [? ? st' Hst' Hne|? ? b' t r' He]; subst.
    + congruence.
    + destruct He as (st' & br' & Hst' & Hin & _).
      rewrite Hst in Hst'. injection Hst' as <-. rewrite Hbs in Hin.
      by apply not_elem_of_nil in Hin.
  - rewrite <- Hbs in Ha0.
    apply bind_Ok in Ha0 as ([followed w1] & Hloop & Hrep).
    destruct (validHeap_lookup _ _ _ Hvalid Hst) as [Hnd _].
    destruct (forBranches_deadEnds _ (currentPath w) state st IH Hst
                (m_branches st) false
                (setCurrentPath (pushState state (currentPath w)) w) followed w1
                None Hnd (fun _ Hb0 => Hb0)
                (fun b0 _ (Heq : None = Some b0) => eq_ind None
                   (fun o => match o with None => True | Some _ => False end)
                   I _ Heq)
                eq_refl Hloop)
      as ((x' & Hcur1 & Hx') & Hf & newd & Hp & Hndn & Hnew).
    cbn [cerr setCurrentPath] in Hp.
    assert (forall d,
              (exists b0 t r, b0 ∈ m_branches st /\
                 d = currentPath w ++ (mkElement state (Some b0) :: r) /\
                 edge h state b0 t /\ t <> state /\
                 (mkElement state (Some b0) ∉ currentPath w) /\
                 deadEnd h (currentPath w ++ [mkElement state (Some b0)]) t r)
              -> exists r, d = currentPath w ++ r /\ deadEnd h (currentPath w) state r)
      as Hstep.
    { intros d (b0 & t & r & Hb0 & -> & He & Ht & Hfr & Hd).
      exists (mkElement state (Some b0) :: r). split; [done|].
      by eapply deadEnd_step. }
    destruct followed; injection Hrep as <-; cbn [cerr].
    + exists newd. split; [done|]. split; [done|].
      intros d. rewrite Hnew. split; [apply Hstep|].
      intros (r & -> & Hd).
      inversion Hd as [? ? st' Hst' Hne Hall|? ? b' t r' He Ht Hfr Hd']; subst.
      * exfalso. destruct Hf as [Hf _].
        destruct (Hf eq_refl) as [|(b0 & t & Hb0 & He & Ht & Hfr)]; [done|].
        destruct (Hall _ _ He); done.
      * exists b', t, r'. repeat split; try done.
        destruct He as (st' & br' & Hst' & Hin & _). congruence.
    + rewrite (Hx' eq_refl) in Hcur1. rewrite Hcur1, Hp, <- app_assoc.
      exists (newd ++ [currentPath w ++ [mkElement state None]]).
      split; [done|]. split.
      * apply NoDup_app. split; [done|]. split; [|apply NoDup_singleton].
        intros d (b0 & t & r & _ & -> & _)%Hnew Heq%list_elem_of_singleton.
        apply app_inv_head in Heq. done.
      * intros d. rewrite elem_of_app, Hnew, list_elem_of_singleton. split.
        -- intros [Hd| ->]; [by apply Hstep|].
           exists [mkElement state None]. split; [done|].
           apply deadEnd_stuck with (st := st); [done|congruence|].
           intros b0 t He.
           destruct (decide (t = state)) as [|Hne]; [by left|].
           destruct (decide (mkElement state (Some b0) ∈ currentPath w)) as [|Hfr];
             [by right|].
           exfalso. assert (false = true) as Habs; [|done].
           apply Hf. right. exists b0, t. repeat split; try done.
           destruct He as (st' & br' & Hst' & Hin & _). congruence.
        -- intros (r & -> & Hd).
           inversion Hd as [? ? st' Hst' Hne Hall|? ? b' t r' He Ht Hfr Hd']; subst.
           ++ by right.
           ++ left. exists b', t, r'. repeat split; try done.
              destruct He as (st' & br' & Hst' & Hin & _). congruence.
Qed.
End DeadEnds.

(** X5. The loop reports of an enumeration are exactly the dead ends of the
    graph, each reported once: the paths that follow accepted branches from
    the entry state to a state that has branches, every one of which leads
    back to that state or is already held by the path.  The reported path
    ends in that state, with no branch chosen. *)
Theorem findPaths_reports h start fuel :
  validHeap h -> start < length (states h) -> branchCount h < fuel ->
  exists w,
    findPaths fuel h start = Ok w /\
    NoDup (cerr w) /\ forall d, d ∈ cerr w <-> deadEnd h [] start d.
Proof.
  intros Hvalid Hstart Hfuel.
  destruct (findPathsImpl_total h Hvalid fuel start (mkWorld [] [] []) Hstart)
    as (w & Hrun & Hcur).
  { cbn [currentPath]. rewrite unused_nil. done. }
  exists w. split; [done|].
  apply (findPathsImpl_deadEnds h Hvalid) in Hrun as (_ & newd & Hp & Hnd & Hnew).
  cbn [cerr currentPath app] in Hp, Hnew. rewrite Hp. split; [done|].
  intros d. rewrite Hnew. split.
  - intros (r & -> & Hd). done.
  - intros Hd. eauto.
Qed.

Lemma findPaths_reports_witness :
  exists w,
    findPaths 4 (built DeadLoopGraph).1 (built DeadLoopGraph).2 = Ok w /\
    NoDup (cerr w) /\
    forall d, d ∈ cerr w <->
      deadEnd (built DeadLoopGraph).1 [] (built DeadLoopGraph).2 d.
Proof.
  apply findPaths_reports.
  - apply (bool_decide_unpack _). vm_compute. exact I.
  - vm_compute. lia.
  - vm_compute. lia.
Defined.

Lemma deadEnd_acyclic h :
  validHeap h -> acyclic h ->
  forall p s r, deadEnd h p s r ->
    (forall e, e ∈ p -> reaches h (m_state e) s) -> False.
Proof.
  intros Hvalid Hacyc.
  induction 1 as [p s st Hst Hne Hall|p s b t r He Ht Hf Hd IH]; intros Hp.
  - destruct (m_branches st) as [|b bs] eqn:Hbs; [done|].
    destruct (validHeap_lookup _ _ _ Hvalid Hst) as [_ Hbr].
    rewrite Hbs in Hbr. apply Forall_cons in Hbr as [Hb _].
    apply validBranch_inv in Hb as (br & Hb & _).
    assert (edge h s b (m_nextState br)) as He.
    { exists st, br. rewrite Hbs. repeat split; try done. left. }
    apply (Hacyc s). destruct (Hall _ _ He) as [Heq|Hin].
    + rewrite Heq in He. by eapply reaches_edge.
    + exact (Hp _ Hin).
  - apply IH. intros e [Hin|Heq%list_elem_of_singleton]%elem_of_app.
    + eapply reaches_snoc; [by apply Hp|exact He].
    + subst e. by eapply reaches_edge.
Qed.

(** X6. On an acyclic graph the enumeration reports no loop. *)
Theorem acyclic_no_report h start fuel :
  validHeap h -> start < length (states h) -> acyclic h -> branchCount h < fuel ->
  exists w, findPaths fuel h start = Ok w /\ cerr w = [].
Proof.
  intros Hvalid Hstart Hacyc Hfuel.
  destruct (findPathsImpl_total h Hvalid fuel start (mkWorld [] [] []) Hstart)
    as (w & Hrun & Hcur).
  { cbn [currentPath]. rewrite unused_nil. done. }
  exists w. split; [done|].
  apply (findPathsImpl_deadEnds h Hvalid) in Hrun as (_ & newd & Hp & _ & Hnew).
  cbn [cerr currentPath app] in Hp, Hnew. rewrite Hp.
  destruct newd as [|d newd]; [done|]. exfalso.
  destruct (proj1 (Hnew d)) as (r & _ & Hd); [left|].
  apply (deadEnd_acyclic h Hvalid Hacyc _ _ _ Hd).
  intros e He. by apply not_elem_of_nil in He.
Qed.

Lemma acyclic_no_report_witness :
  exists w,
    findPaths 5 (built DiamondGraph).1 (built DiamondGraph).2 = Ok w /\ cerr w = [].
Proof.
  apply acyclic_no_report.
  - apply (bool_decide_unpack _). vm_compute. exact I.
  - vm_compute. lia.
  - apply (descending_acyclic (fun s => 4 - s)).
    apply (bool_decide_unpack _). vm_compute. exact I.
  - vm_compute. lia.
Defined.

(** ** findPathsImpl: the completed paths of any graph *)

Lemma sinkPath_simple_descent h :
  forall s r, sinkPath h s r ->
    forall p, NoDup r ->
      (forall e b, e ∈ r -> m_branch e = Some b -> ~ edge h (m_state e) b (m_state e)) ->
      (forall e, e ∈ r -> is_Some (m_branch e) -> e ∉ p) ->
      descent h p s r.
Proof.
  induction 1 as [s st Hst Hnil|s b t r He Hr IH]; intros p Hnd Hself Hp.
  - by eapply descent_sink.
  - apply NoDup_cons in Hnd as [Hfresh Hnd].
    apply descent_step with (t := t); [done| | |].
    + intros ->. apply (Hself (mkElement s (Some b)) b); [left|done|done].
    + apply Hp; [left|by eexists].
    + apply IH; [done| |].
      * intros e b0 Hin. apply Hself. by right.
      * intros e Hin Hsome [Hep|Heq%list_elem_of_singleton]%elem_of_app.
        -- apply (Hp e); [by right|done|done].
        -- by subst e.
Qed.

(** X7. On any graph, cyclic or not, the enumeration lists, each once,
    exactly the paths from the entry state to a state without branches that
    use no (state, branch) pair twice and no branch leading back to the state
    it leaves. *)
Theorem findPaths_simple_paths h start fuel :
  validHeap h -> start < length (states h) -> branchCount h < fuel ->
  exists w,
    findPaths fuel h start = Ok w /\
    NoDup (paths w) /\
    forall q, q ∈ paths w <->
      sinkPath h start q /\ NoDup q /\
      forall e b, e ∈ q -> m_branch e = Some b -> ~ edge h (m_state e) b (m_state e).
Proof.
  intros Hvalid Hstart Hfuel.
  destruct (findPaths_enumerates h start fuel Hvalid Hstart Hfuel)
    as (w & Hrun & _ & Hnd & Hpaths).
  exists w. split; [done|]. split; [done|].
  intros q. rewrite Hpaths. split.
  - intros Hq. split; [by eapply descent_sinkPath|]. split.
    + by apply descent_NoDup in Hq as [Hq _].
    + by eapply descent_no_self.
  - intros (Hq & Hndq & Hself).
    apply (sinkPath_simple_descent h _ _ Hq); [done|done|].
    intros e He _ Hin. by apply not_elem_of_nil in Hin.
Qed.

Lemma findPaths_simple_paths_witness :
  exists w,
    findPaths 9 (built ParseGraph).1 (built ParseGraph).2 = Ok w /\
    NoDup (paths w) /\
    forall q, q ∈ paths w <->
      sinkPath (built ParseGraph).1 (built ParseGraph).2 q /\ NoDup q /\
      forall e b, e ∈ q -> m_branch e = Some b ->
        ~ edge (built ParseGraph).1 (m_state e) b (m_state e).
Proof.
  apply findPaths_simple_paths.
  - apply (bool_decide_unpack _). vm_compute. exact I.
  - vm_compute. lia.
  - vm_compute. lia.
Defined.

(** ** findPathsImpl: every call yields something *)

Section Progress.
Variable h : Heap.

Lemma forBranches_progress (visit : StatePtr -> World -> result World) :
  (forall t w1 w2, visit t w1 = Ok w2 ->
     length (paths w1) + length (cerr w1) < length (paths w2) + length (cerr w2)) ->
  forall bs followed w followed' w',
    forBranches visit h bs followed w = Ok (followed', w') ->
    length (paths w) + length (cerr w) <= length (paths w') + length (cerr w') /\
    (followed = true -> followed' = true) /\
    (followed = false -> followed' = true ->
     length (paths w) + length (cerr w) < length (paths w') + length (cerr w')).
Proof.
  intros Hvisit. induction bs as [|b bs IH]; intros f w f' w' Hrun.
  - injection Hrun as <- <-. split; [lia|]. split; [done|]. intros ->. done.
  - cbn [forBranches] in Hrun.
    apply bind_Ok in Hrun as ([taken p1] & Hfb & Hrun). destruct taken.
    + inv_bind Hrun. apply Hvisit in Ha0. cbn [paths cerr setCurrentPath] in Ha0.
      apply IH in Hrun as (Hle & Htrue & _). specialize (Htrue eq_refl).
      split; [lia|]. split; [done|]. intros _ _. lia.
    + apply IH in Hrun as (Hle & Htrue & Hlt). cbn [paths cerr setCurrentPath] in *.
      done.
Qed.

Lemma findPathsImpl_progress fuel :
  forall state w w',
    findPathsImpl fuel h state w = Ok w' ->
    length (paths w) + length (cerr w) < length (paths w') + length (cerr w').
Proof.
  induction fuel as [|fuel IH]; intros state w w' Hrun; [done|].
  cbn [findPathsImpl] in Hrun. inv_bind Hrun. injection Hrun as <-.
  cbn [paths cerr setCurrentPath].
  destruct (m_branches a) as [|b bs].
  - injection Ha0 as <-. cbn [paths cerr setCurrentPath].
    rewrite length_app. cbn [length]. lia.
  - apply bind_Ok in Ha0 as ([followed w1] & Hloop & Hrep).
    apply (forBranches_progress _ IH) in Hloop as (Hle & _ & Hlt).
    cbn [paths cerr setCurrentPath] in *.
    destruct followed; injection Hrep as <-; cbn [paths cerr].
    + by apply Hlt.
    + rewrite length_app. cbn [length]. lia.
Qed.
End Progress.

(** X8. An enumeration never comes back empty-handed: it yields at least
    one completed path or at least one loop report. *)
Theorem findPaths_yields h start fuel :
  validHeap h -> start < length (states h) -> branchCount h < fuel ->
  exists w, findPaths fuel h start = Ok w /\ (paths w <> [] \/ cerr w <> []).
Proof.
  intros Hvalid Hstart Hfuel.
  destruct (findPathsImpl_total h Hvalid fuel start (mkWorld [] [] []) Hstart)
    as (w & Hrun & _).
  { cbn [currentPath]. rewrite unused_nil. done. }
  exists w. split; [done|].
  apply findPathsImpl_progress in Hrun. cbn [paths cerr length] in Hrun.
  destruct (paths w); [|by left]. destruct (cerr w); [|by right].
  cbn [length] in Hrun. lia.
Qed.

Lemma findPaths_yields_witness :
  exists w,
    findPaths 9 (built ParseGraph).1 (built ParseGraph).2 = Ok w /\
    (paths w <> [] \/ cerr w <> []).
Proof.
  apply findPaths_yields.
  - apply (bool_decide_unpack _). vm_compute. exact I.
  - vm_compute. lia.
  - vm_compute. lia.
Defined.

Lemma sinkPath_sink_exists h s r :
  sinkPath h s r -> exists t st, states h !! t = Some st /\ m_branches st = [].
Proof. induction 1; eauto. Qed.

(** X9. When every state of the graph has a branch, the enumeration finds
    no path and reports at least one loop. *)
Theorem no_sink_no_path h start fuel :
  validHeap h -> start < length (states h) -> branchCount h < fuel ->
  Forall (fun st => m_branches st <> []) (states h) ->
  exists w, findPaths fuel h start = Ok w /\ paths w = [] /\ cerr w <> [].
Proof.
  intros Hvalid Hstart Hfuel Hnosink.
  destruct (findPaths_enumerates h start fuel Hvalid Hstart Hfuel)
    as (w & Hrun & _ & _ & Hpaths).
  exists w. split; [done|].
  assert (paths w = []) as Hnone.
  { destruct (paths w) as [|q qs]; [done|]. exfalso.
    destruct (proj1 (Hpaths q)) as [p s st Hst Hnil|p s b t r He Ht Hf Hd]; [left| |].
    - rewrite Forall_forall in Hnosink.
      apply (Hnosink st); [by eapply list_elem_of_lookup_2|done].
    - apply descent_sinkPath, sinkPath_sink_exists in Hd as (u & st & Hst & Hnil).
      rewrite Forall_forall in Hnosink.
      apply (Hnosink st); [by eapply list_elem_of_lookup_2|done]. }
  split; [done|].
  unfold findPaths in Hrun. apply findPathsImpl_progress in Hrun.
  rewrite Hnone in Hrun. cbn [paths cerr length] in Hrun.
  destruct (cerr w); [cbn [length] in Hrun; lia|done].
Qed.

Lemma no_sink_no_path_witness :
  exists w,
    findPaths 4 (built DeadLoopGraph).1 (built DeadLoopGraph).2 = Ok w /\
    paths w = [] /\ cerr w <> [].
Proof.
  apply no_sink_no_path.
  - apply (bool_decide_unpack _). vm_compute. exact I.
  - vm_compute. lia.
  - vm_compute. lia.
  - apply (bool_decide_unpack _). vm_compute. exact I.
Defined.

(** ** findPathsImpl: what was found before stays *)

Section Extend.
Variable h : Heap.
Variables ps ds : list ParsePath.

Lemma forBranches_extend (visit : StatePtr -> World -> result World) :
  (forall t w,
     visit t (extend ps ds w) = do w' <- visit t w; Ok (extend ps ds w')) ->
  forall bs followed w,
    forBranches visit h bs followed (extend ps ds w) =
      do '(followed', w') <- forBranches visit h bs followed w;
      Ok (followed', extend ps ds w').
Proof.
  intros Hvisit. induction bs as [|b bs IH]; intros f w; [done|].
  cbn [forBranches]. change (currentPath (extend ps ds w)) with (currentPath w).
  destruct (followBranch h b (currentPath w)) as [[taken p1]|e]; [|done].
  cbn [bind].
  change (setCurrentPath p1 (extend ps ds w)) with (extend ps ds (setCurrentPath p1 w)).
  destruct taken; [|apply IH].
  destruct (derefBranch h b) as [br|e]; [|done]. cbn [bind].
  rewrite Hvisit. destruct (visit (m_nextState br) (setCurrentPath p1 w)) as [w2|e];
    [|done].
  cbn [bind]. apply IH.
Qed.

Lemma findPathsImpl_extend fuel :
  forall state w,
    findPathsImpl fuel h state (extend ps ds w) =
      do w' <- findPathsImpl fuel h state w; Ok (extend ps ds w').
Proof.
  induction fuel as [|fuel IH]; intros state w; [done|].
  cbn [findPathsImpl].
  change (currentPath (extend ps ds w)) with (currentPath w).
  change (setCurrentPath (pushState state (currentPath w)) (extend ps ds w))
    with (extend ps ds (setCurrentPath (pushState state (currentPath w)) w)).
  set (w0 := setCurrentPath (pushState state (currentPath w)) w).
  destruct (derefState h state) as [st|e]; [|done]. cbn [bind].
  destruct (m_branches st) as [|b bs].
  - cbn [bind paths currentPath cerr extend].
    rewrite <- app_assoc.
    destruct (popState (currentPath w0)) as [p|e]; [|done]. done.
  - rewrite (forBranches_extend _ IH).
    destruct (forBranches (findPathsImpl fuel h) h (b :: bs) false w0)
      as [[followed w1]|e]; [|done].
    cbn [bind]. destruct followed; cbn [bind paths currentPath cerr extend].
    + destruct (popState (currentPath w1)) as [p|e]; [|done]. done.
    + rewrite <- app_assoc.
      destruct (popState (currentPath w1)) as [p|e]; [|done]. done.
Qed.
End Extend.

(** X10. [findPathsImpl] only appends to the result vector and to the
    reports: what they held before the call stays in front, and what the
    call appends does not depend on it. *)
Theorem findPathsImpl_appends h fuel state ps p ds :
  findPathsImpl fuel h state (mkWorld ps p ds) =
    do w' <- findPathsImpl fuel h state (mkWorld [] p []);
    Ok (mkWorld (ps ++ paths w') (currentPath w') (ds ++ cerr w')).
Proof.
  transitivity (findPathsImpl fuel h state (extend ps ds (mkWorld [] p []))).
  - unfold extend. cbn [paths currentPath cerr]. by rewrite !app_nil_r.
  - apply findPathsImpl_extend.
Qed.

(** ** findPathsImpl: the order of the result *)

Lemma inBranchOrder_app h l1 l2 :
  inBranchOrder h l1 -> inBranchOrder h l2 ->
  (forall q1 q2, q1 ∈ l1 -> q2 ∈ l2 -> earlier h q1 q2) ->
  inBranchOrder h (l1 ++ l2).
Proof.
  intros H1 H2 Hcross i j q1 q2 Hij Hi Hj.
  apply lookup_app_Some in Hi as [Hi|[Hi1 Hi2]];
    apply lookup_app_Some in Hj as [Hj|[Hj1 Hj2]].
  - by eapply H1.
  - apply Hcross; by eapply list_elem_of_lookup_2.
  - apply lookup_lt_Some in Hj. lia.
  - eapply (H2 (i - length l1) (j - length l1)); [lia|done|done].
Qed.

Section Order.
Variable h : Heap.
Hypothesis Hvalid : validHeap h.

Lemma forBranches_order (visit : StatePtr -> World -> result World) p s st :
  (forall t w1 w2, visit t w1 = Ok w2 ->
     currentPath w2 = currentPath w1 /\
     exists new, paths w2 = paths w1 ++ new /\
       enumerates h (currentPath w1) t new /\ inBranchOrder h new) ->
  states h !! s = Some st -> NoDup (m_branches st) ->
  forall bs before followed w followed' w' x,
    m_branches st = before ++ bs ->
    (forall b, b ∈ bs -> x <> Some b) ->
    currentPath w = p ++ [mkElement s x] ->
    forBranches visit h bs followed w = Ok (followed', w') ->
    exists new, paths w' = paths w ++ new /\ inBranchOrder h new.
Proof.
  intros Hvisit Hst Hnd.
  assert (forall t w1 w2, visit t w1 = Ok w2 ->
            currentPath w2 = currentPath w1 /\
            exists new, paths w2 = paths w1 ++ new /\
              enumerates h (currentPath w1) t new) as Hvisit'.
  { intros t w1 w2 (Hc & new & Hp & He & _)%Hvisit. eauto. }
  induction bs as [|b bs IH]; intros before f w f' w' x Hsplit Hx Hcur Hrun.
  - injection Hrun as <- <-. exists []. rewrite app_nil_r. split; [done|].
    intros i j q1 q2 _ Hi. done.
  - assert (NoDup (b :: bs)) as Hndbs
      by (rewrite Hsplit in Hnd; by apply NoDup_app in Hnd as (_ & _ & Hnd)).
    apply NoDup_cons in Hndbs as [Hb Hndbs].
    assert (m_branches st = (before ++ [b]) ++ bs) as Hsplit'
      by (by rewrite <- app_assoc).
    assert (forall b0, b0 ∈ bs -> b0 ∈ m_branches st) as Hown.
    { intros b0 Hb0. rewrite Hsplit'. apply elem_of_app. by right. }
    cbn [forBranches] in Hrun.
    apply bind_Ok in Hrun as ([taken p1] & Hfb & Hrun).
    rewrite Hcur in Hfb.
    apply followBranch_inv in Hfb as (br & Hbr & [(-> & -> & Hne & Hfresh)|(-> & -> & Hrej)]).
    + inv_bind Hrun. unfold derefBranch in Ha. rewrite Hbr in Ha.
      injection Ha as <-.
      apply Hvisit in Ha0 as (Hcur2 & new1 & Hp1 & [_ Hnew1] & Hord1).
      cbn [currentPath paths setCurrentPath] in *.
      destruct (IH (before ++ [b]) true a0 f' w' (Some b) Hsplit')
        as (new2 & Hp2 & Hord2);
        [intros b0 Hb0 [= ->]; done | done | done |].
      destruct (forBranches_descents h visit p s st Hvisit' Hst bs true a0 f' w'
                  (Some b) Hndbs Hown) as (new2' & Hp2' & _ & Hnew2);
        [intros b0 Hb0 [= ->]; done | done | done |].
      assert (new2' = new2) as ->
        by (rewrite Hp2 in Hp2'; by apply app_inv_head in Hp2').
      exists (new1 ++ new2). split; [by rewrite Hp2, Hp1, app_assoc|].
      apply inBranchOrder_app; [done|done|].
      intros q1 q2 (r1 & -> & _)%Hnew1 (b2 & t2 & r2 & Hb2 & -> & _)%Hnew2.
      apply list_elem_of_lookup in Hb2 as [k Hk].
      exists p, s, st, b, b2, r1, r2, (length before), (length before + S k).
      rewrite <- app_assoc. split; [done|]. split; [done|]. split; [done|].
      rewrite Hsplit. split; [by rewrite list_lookup_middle|]. split; [|lia].
      rewrite lookup_app_r by lia.
      replace (length before + S k - length before) with (S k) by lia. done.
    + cbn [currentPath paths setCurrentPath] in *.
      apply (IH (before ++ [b]) f (setCurrentPath (p ++ [mkElement s x]) w) f' w' x);
        [done| |done|done].
      intros b0 Hb0. apply Hx. by right.
Qed.

Lemma findPathsImpl_order fuel :
  forall state w w',
    findPathsImpl fuel h state w = Ok w' ->
    currentPath w' = currentPath w /\
    exists new, paths w' = paths w ++ new /\
      enumerates h (currentPath w) state new /\ inBranchOrder h new.
Proof.
  induction fuel as [|fuel IH]; intros state w w' Hrun; [done|].
  destruct (findPathsImpl_descents h Hvalid _ _ _ _ Hrun) as (Hcur & new & Hp & Henum).
  split; [done|]. exists new. split; [done|]. split; [done|].
  cbn [findPathsImpl] in Hrun. inv_bind Hrun. injection Hrun as Hw'.
  unfold derefState in Ha. destruct (states h !! state) as [st|] eqn:Hst; [|done].
  injection Ha as <-.
  destruct (m_branches st) as [|b bs] eqn:Hbs.
  - injection Ha0 as <-. subst w'. cbn [paths setCurrentPath] in Hp.
    apply app_inv_head in Hp as <-.
    intros i j q1 q2 Hij Hi Hj. destruct j; [lia|done].
  - rewrite <- Hbs in Ha0.
    apply bind_Ok in Ha0 as ([followed w1] & Hloop & Hrep).
    destruct (validHeap_lookup _ _ _ Hvalid Hst) as [Hnd _].
    destruct (forBranches_order _ (currentPath w) state st IH Hst Hnd
                (m_branches st) [] false
                (setCurrentPath (pushState state (currentPath w)) w) followed w1
                None eq_refl
                (fun b0 _ (Heq : None = Some b0) => eq_ind None
                   (fun o => match o with None => True | Some _ => False end)
                   I _ Heq)
                eq_refl Hloop)
      as (new' & Hp' & Hord).
    cbn [paths setCurrentPath] in Hp'.
    assert (paths w' = paths w1) as Hsame
      by (subst w'; destruct followed; injection Hrep as <-; done).
    rewrite Hsame, Hp' in Hp. by apply app_inv_head in Hp as <-.
Qed.
End Order.

(** X11. The result is in depth-first, branch-declaration order: of any two
    listed paths, the one listed first takes, at the state where they part,
    the branch that comes first in that state's branch list. *)
Theorem findPaths_in_branch_order h start fuel :
  validHeap h -> start < length (states h) -> branchCount h < fuel ->
  exists w, findPaths fuel h start = Ok w /\ inBranchOrder h (paths w).
Proof.
  intros Hvalid Hstart Hfuel.
  destruct (findPathsImpl_total h Hvalid fuel start (mkWorld [] [] []) Hstart)
    as (w & Hrun & _).
  { cbn [currentPath]. rewrite unused_nil. done. }
  exists w. split; [done|].
  apply (findPathsImpl_order h Hvalid) in Hrun as (_ & new & Hp & _ & Hord).
  cbn [paths app] in Hp. by rewrite Hp.
Qed.

Lemma findPaths_in_branch_order_witness :
  exists w,
    findPaths 9 (built ParseGraph).1 (built ParseGraph).2 = Ok w /\
    inBranchOrder (built ParseGraph).1 (paths w).
Proof.
  apply findPaths_in_branch_order.
  - apply (bool_decide_unpack _). vm_compute. exact I.
  - vm_compute. lia.
  - vm_compute. lia.
Defined.

(** ** The program after a successful build *)

Lemma sinkPath_names h s r :
  sinkPath h s r ->
  exists st names, states h !! s = Some st /\ pathNames h r = Ok (m_name st :: names).
Proof.
  induction 1 as [s st Hst Hnil|s b t r He Hr (st' & names & Hst' & IH)].
  - exists st, []. split; [done|]. cbn [pathNames m_state]. unfold derefState.
    by rewrite Hst.
  - destruct He as (st & br & Hst & _). exists st, (m_name st' :: names).
    split; [done|]. cbn [pathNames m_state]. unfold derefState.
    by rewrite Hst, IH.
Qed.

Lemma deadEnd_names h p s r :
  deadEnd h p s r ->
  exists st names, states h !! s = Some st /\ pathNames h r = Ok (m_name st :: names).
Proof.
  induction 1 as [p s st Hst Hne Hall|p s b t r He Ht Hf Hd (st' & names & Hst' & IH)].
  - exists st, []. split; [done|]. cbn [pathNames m_state]. unfold derefState.
    by rewrite Hst.
  - destruct He as (st & br & Hst & _). exists st, (m_name st' :: names).
    split; [done|]. cbn [pathNames m_state]. unfold derefState.
    by rewrite Hst, IH.
Qed.

Lemma allNames_Forall h (P : list string -> Prop) l :
  (forall q, q ∈ l -> exists names, pathNames h q = Ok names /\ P names) ->
  exists all, allNames h l = Ok all /\ Forall P all.
Proof.
  induction l as [|q l IH]; intros Hl.
  - exists []. split; [done|constructor].
  - destruct (Hl q) as (names & Hq & HP); [left|].
    destruct IH as (all & Hall & HPall); [intros q' Hq'; apply Hl; by right|].
    exists (names :: all). cbn [allNames]. rewrite Hq, Hall.
    split; [done|by constructor].
Qed.

(** X12. After a successful build the program runs to its end: with a
    recursion budget above the number of branches, the enumeration and the
    printing of every path and report meet no failed assertion and no invalid
    pointer, and every printed path and report begins with "start". *)
Theorem run_after_build (graph : list (string * list string)) h start fuel :
  createGraph graph = Ok (h, start) -> branchCount h < fuel ->
  exists found reported,
    run fuel graph = Ok (found, reported) /\
    Forall (fun names => head names = Some "start") found /\
    Forall (fun names => head names = Some "start") reported.
Proof.
  intros Hbuild Hfuel.
  destruct (createGraph_valid _ _ _ Hbuild) as [Hvalid Hstart].
  destruct (createGraph_layout _ _ _ Hbuild) as (m & _ & Hm & Hs & _ & Hentries).
  assert (exists bs, states h !! start = Some (mkState "start" bs)) as [bs0 Hst0].
  { apply Hm in Hs. rewrite list_lookup_fmap in Hs.
    destruct (graph !! start) as [[k names]|] eqn:Hi; [|done].
    injection Hs as ->. destruct (Hentries _ _ _ Hi) as (bs & Hbs & _). eauto. }
  destruct (findPathsImpl_total h Hvalid fuel start (mkWorld [] [] []) Hstart)
    as (w & Hrun & _).
  { cbn [currentPath]. rewrite unused_nil. done. }
  destruct (findPathsImpl_descents h Hvalid _ _ _ _ Hrun) as (_ & new & Hp & _ & Hnew).
  destruct (findPathsImpl_deadEnds h Hvalid _ _ _ _ Hrun) as (_ & newd & Hd & _ & Hnewd).
  cbn [paths cerr currentPath app] in Hp, Hd, Hnew, Hnewd.
  destruct (allNames_Forall h (fun names => head names = Some "start") (paths w))
    as (found & Hfound & HPfound).
  { intros q Hq. rewrite Hp in Hq. apply Hnew in Hq as (r & -> & Hr).
    apply descent_sinkPath, sinkPath_names in Hr as (st & names & Hst & Hnames).
    exists (m_name st :: names). split; [done|].
    rewrite Hst0 in Hst. by injection Hst as <-. }
  destruct (allNames_Forall h (fun names => head names = Some "start") (cerr w))
    as (reported & Hreported & HPreported).
  { intros d Hin. rewrite Hd in Hin. apply Hnewd in Hin as (r & -> & Hr).
    apply deadEnd_names in Hr as (st & names & Hst & Hnames).
    exists (m_name st :: names). split; [done|].
    rewrite Hst0 in Hst. by injection Hst as <-. }
  exists found, reported. split; [|done].
  unfold run, findPaths. rewrite Hbuild. cbn [bind]. rewrite Hrun. cbn [bind].
  by rewrite Hfound, Hreported.
Qed.

Lemma run_after_build_witness :
  exists found reported,
    run 9 ParseGraph = Ok (found, reported) /\
    Forall (fun names => head names = Some "start") found /\
    Forall (fun names => head names = Some "start") reported.
Proof.
  apply (run_after_build ParseGraph (built ParseGraph).1 (built ParseGraph).2).
  - reflexivity.
  - vm_compute. lia.
Defined.

(** ** ParsePath *)

(** X13. [popState] undoes [pushState]: the pushed element, a state with no
    branch chosen, is the last one, and popping gives back the path as it
    was.  Popping an empty path fails the assertion. *)
Theorem popState_pushState_inverse state (p : ParsePath) :
  last (pushState state p) = Some (mkElement state None) /\
  popState (pushState state p) = Ok p /\
  popState [] = Err AssertionFailed.
Proof.
  split; [|split].
  - unfold pushState. apply last_snoc.
  - apply popState_snoc.
  - reflexivity.
Qed.

(** X14. Every outcome of [followBranch]: on an empty path the assertion
    fails; with a branch pointer that names no object the call is invalid;
    otherwise the path keeps its length and all its states, nothing changes
    when the branch is refused, and when it is accepted only the chosen branch
    of the last element changes, to that branch. *)
Theorem followBranch_outcome h b (p : ParsePath) :
  match followBranch h b p with
  | Ok (followed, p') =>
      exists q s x,
        p = q ++ [mkElement s x] /\
        p' = q ++ [mkElement s (if followed then Some b else x)]
  | Err e =>
      (p = [] /\ e = AssertionFailed) \/
      (p <> [] /\ branches h !! b = None /\ e = InvalidPointer)
  end.
Proof.
  destruct p as [|e0 p0] using rev_ind.
  - cbn. by left.
  - clear IHp0. destruct e0 as [s x].
    destruct (branches h !! b) as [br|] eqn:Hb.
    + rewrite (followBranch_snoc _ _ _ _ _ _ Hb).
      case_decide; exists p0, s, x; done.
    + unfold followBranch, derefBranch. rewrite last_snoc, Hb. cbn [bind].
      right. split; [|done]. by destruct p0.
Qed.

(** *** Printing *)

Lemma append_assoc (s1 s2 s3 : string) : (s1 +:+ s2) +:+ s3 = s1 +:+ s2 +:+ s3.
Proof.
  induction s1 as [|a s1 IH]; [done|].
  change (String a ((s1 +:+ s2) +:+ s3) = String a (s1 +:+ s2 +:+ s3)).
  by rewrite IH.
Qed.

Lemma pathNames_states h (p p' : ParsePath) :
  map m_state p = map m_state p' -> pathNames h p = pathNames h p'.
Proof.
  revert p'. induction p as [|e p IH]; intros [|e' p'] Heq; try done.
  injection Heq as Hs Hrest. cbn [pathNames]. by rewrite Hs, (IH p' Hrest).
Qed.

Lemma pathNames_snoc h (p : ParsePath) e st names :
  pathNames h p = Ok names -> states h !! m_state e = Some st ->
  pathNames h (p ++ [e]) = Ok (names ++ [m_name st]).
Proof.
  revert names. induction p as [|e0 p IH]; intros names Hp Hst.
  - injection Hp as <-. cbn [app pathNames]. unfold derefState. by rewrite Hst.
  - cbn [app pathNames] in *. inv_bind Hp. injection Hp as <-.
    rewrite Ha. cbn [bind]. by rewrite (IH _ Ha0 Hst).
Qed.

Lemma printed_snoc (names : list string) name :
  foldr (fun name out => name +:+ "; " +:+ out) "" (names ++ [name]) =
  foldr (fun name out => name +:+ "; " +:+ out) "" names +:+ name +:+ "; ".
Proof.
  induction names as [|n names IH]; [done|].
  cbn [app foldr]. rewrite IH. by rewrite !append_assoc.
Qed.

(** X15. What [operator<<] prints depends on the states of the path only,
    not on the branches chosen. *)
Theorem printPath_states_only h (p p' : ParsePath) :
  map m_state p = map m_state p' -> printPath h p = printPath h p'.
Proof. intros Heq. unfold printPath. by rewrite (pathNames_states h p p' Heq). Qed.

Lemma printPath_states_only_witness :
  printPath (built ParseGraph).1 [mkElement 0 (Some 0); mkElement 1 None] =
  printPath (built ParseGraph).1 [mkElement 0 (Some 1); mkElement 1 (Some 2)].
Proof. apply printPath_states_only. reflexivity. Defined.

(** X16. Pushing a state extends the printed path by the name of that
    state followed by "; ". *)
Theorem printPath_pushState h (p : ParsePath) state st out :
  states h !! state = Some st -> printPath h p = Ok out ->
  printPath h (pushState state p) = Ok (out +:+ m_name st +:+ "; ").
Proof.
  intros Hst Hp. unfold printPath in *. inv_bind Hp. injection Hp as <-.
  unfold pushState. rewrite (pathNames_snoc h p (mkElement state None) st a Ha Hst).
  cbn [bind]. by rewrite printed_snoc.
Qed.

Lemma printPath_pushState_witness :
  printPath (built ParseGraph).1 (pushState 1 [mkElement 0 (Some 0)]) =
  Ok ("start; " +:+ "start_loop" +:+ "; ").
Proof.
  apply (printPath_pushState (built ParseGraph).1 [mkElement 0 (Some 0)] 1
           (mkState "start_loop" [2; 3]) "start; "); reflexivity.
Defined.
